(** * pwfilter: a shallow embedding of the wordlist filter

    The development follows the three source modules:
    - [presets.py]: the catalog [PRESETS], the alias index
      [PRESET_ID_TO_NAME_MAP] and [get_preset_by_name_or_id];
    - [core.py]: [filter_passwords], split into its four phases
      (pattern compilation, dictionary loading, the line loop, the summary);
    - [cli.py]: [main], from the parsed argument namespace onwards.

    Python values are modelled as follows: a [str] is a list of Unicode code
    points, an [int] is a [Z], a [set] of strings is a [gset], the catalog
    [dict] is an association list in definition order, and an open text file
    is the sequence of raw lines its iteration yields.  The interpreter's
    standard streams and the output file form the [World] that a small
    state-and-exit monad threads through the code. *)

From Stdlib Require Import NArith ZArith String Ascii List Lia DecimalString.
From stdpp Require Import base decidable list gmap sets.
Import ListNotations.

Open Scope Z_scope.

(** ** Python strings *)

Module Py.

(** A Python [str]: a sequence of code points. *)
Definition char : Type := N.
Definition str : Type := list N.

Fixpoint lit (s : string) : str :=
  match s with
  | EmptyString => []
  | String a s' => N_of_ascii a :: lit s'
  end.

(** The line terminator written after every emitted candidate. *)
Definition nl : str := [10%N].

(** [Py_UNICODE_ISSPACE]: the characters [str.strip()] removes. *)
Definition isspace (c : char) : bool :=
  ((9 <=? c) && (c <=? 13) || (28 <=? c) && (c <=? 32)
   || (c =? 133) || (c =? 160) || (c =? 5760)
   || (8192 <=? c) && (c <=? 8202)
   || (c =? 8232) || (c =? 8233) || (c =? 8239) || (c =? 8287)
   || (c =? 12288))%N.

Fixpoint lstrip (s : str) : str :=
  match s with
  | [] => []
  | c :: s' => if isspace c then lstrip s' else s
  end.

Definition rstrip (s : str) : str := rev (lstrip (rev s)).

(** [s.strip()] *)
Definition strip (s : str) : str := rstrip (lstrip s).

(** Truth value of a string: [not s] holds exactly for the empty string. *)
Definition truthy (s : str) : bool :=
  match s with [] => false | _ => true end.

(** Truth value of a list: [not l] holds exactly for the empty list. *)
Definition nonempty {A} (l : list A) : bool :=
  match l with [] => false | _ => true end.

(** [str(n)] for an [int]. *)
Definition str_of_int (n : Z) : str := lit (NilZero.string_of_int (Z.to_int n)).

(** [s.ljust(w)], the effect of the format spec [:<w]. *)
Definition ljust (w : nat) (s : str) : str :=
  s ++ repeat 32%N (w - length s).

End Py.
Import Py.

(** ** The interpreter services the program relies on

    [str.lower] and the [re] module are the interpreter's, not the
    repository's; the program is modelled over any implementation of them.
    [re_compile p ic] is [re.compile(p, re.IGNORECASE if ic else 0)]: it
    yields a compiled pattern or the text of the [re.error] raised.
    [re_search rx s] says whether [rx.search(s)] finds a match.
    [parser_error_text m] is everything [ArgumentParser.error(m)] writes to
    the diagnostic stream (usage line and message). *)

Class Runtime := {
  lower : str -> str;
  Pattern : Type;
  re_compile : str -> bool -> Pattern + str;
  re_search : Pattern -> str -> bool;
  parser_error_text : str -> str;
}.

(** ** Streams, exit status and the process monad *)

Record World := mkWorld {
  stdout : list str;
  stderr : list str;
  outfile : list str;
}.

Definition world0 : World := mkWorld [] [] [].

(** The value of [output_file]: [sys.stdout] itself or a named file opened
    for writing. *)
Inductive OutFile :=
| SysStdout
| TextFile (name : str).

Definition is_stdout (f : OutFile) : bool :=
  match f with SysStdout => true | TextFile _ => false end.

Definition file_name (f : OutFile) : str :=
  match f with SysStdout => lit "<stdout>" | TextFile n => n end.

(** What has been written to [f] so far, one entry per [write] call. *)
Definition sink (f : OutFile) (w : World) : list str :=
  match f with SysStdout => stdout w | TextFile _ => outfile w end.

(** A computation either returns or leaves through [sys.exit(code)]. *)
Inductive Res (A : Type) :=
| Ret (a : A)
| Exit (code : Z).
Arguments Ret {A} a.
Arguments Exit {A} code.

Definition Proc (A : Type) : Type := World -> Res A * World.

Definition ret {A} (a : A) : Proc A := fun w => (Ret a, w).

Definition bind {A B} (m : Proc A) (k : A -> Proc B) : Proc B :=
  fun w =>
    match m w with
    | (Ret a, w') => k a w'
    | (Exit c, w') => (Exit c, w')
    end.

Notation "'do' x <- m ; k" := (bind m (fun x => k))
  (at level 10, x name, m at level 100, k at level 200).
Notation "m >> k" := (bind m (fun _ => k))
  (at level 65, right associativity).

Definition sys_exit {A} (code : Z) : Proc A := fun w => (Exit code, w).

(** [f.write(s)] *)
Definition write (f : OutFile) (s : str) : Proc unit :=
  fun w =>
    (Ret tt,
     match f with
     | SysStdout => mkWorld (stdout w ++ [s]) (stderr w) (outfile w)
     | TextFile _ => mkWorld (stdout w) (stderr w) (outfile w ++ [s])
     end).

(** [print(s)] *)
Definition print (s : str) : Proc unit := write SysStdout (s ++ nl).

(** [print(s, file=sys.stderr)] *)
Definition eprint (s : str) : Proc unit :=
  fun w => (Ret tt, mkWorld (stdout w) (stderr w ++ [s ++ nl]) (outfile w)).

(** A [for] loop whose body updates the loop variables [S]. *)
Fixpoint for_each {A S} (body : S -> A -> Proc S) (xs : list A) (s : S) : Proc S :=
  match xs with
  | [] => ret s
  | x :: xs' => do s' <- body s x; for_each body xs' s'
  end.

(** ** core.py *)

Section Core.
Context {rt : Runtime}.

(** An open text file, read by iterating over it: the raw lines, each with
    whatever terminator it carries.  File objects are always true, and
    closing one has no effect on the streams modelled here. *)
Definition InFile : Type := list str.

(** Lines 25-36: the patterns are compiled in order; the first one the
    regex compiler refuses is reported and ends the process with status 1.
    [if regex_patterns:] skips the loop for [None] and for the empty list. *)
Definition compile_step (ignore_case : bool)
    (compiled_regexes : list Pattern) (pattern_str : str) : Proc (list Pattern) :=
  match re_compile pattern_str ignore_case with
  | inl rx => ret (compiled_regexes ++ [rx])
  | inr e =>
      eprint (lit "Error: Invalid regex pattern '" ++ pattern_str
              ++ lit "': " ++ e) >>
      sys_exit 1
  end.

Definition compile_patterns (regex_patterns : option (list str))
    (ignore_case : bool) : Proc (list Pattern) :=
  match regex_patterns with
  | None => ret []
  | Some ps =>
      if nonempty ps then for_each (compile_step ignore_case) ps []
      else ret []
  end.

(** Lines 38-51: the dictionary word set. *)
Definition add_word (ignore_case : bool) (dictionary_words : gset str)
    (line : str) : gset str :=
  let word := strip line in
  if negb (truthy word) then dictionary_words
  else if ignore_case then {[ lower word ]} ∪ dictionary_words
  else {[ word ]} ∪ dictionary_words.

Definition load_dictionary (dictionary_file : option InFile)
    (ignore_case : bool) : gset str :=
  match dictionary_file with
  | None => ∅
  | Some lines => fold_left (add_word ignore_case) lines ∅
  end.

(** Lines 74-77: the loop over the compiled patterns, left at the first one
    that finds no match. *)
Fixpoint regex_loop (compiled_regexes : list Pattern) (password : str) : bool :=
  match compiled_regexes with
  | [] => true
  | comp_rx :: rest =>
      if negb (re_search comp_rx password) then false
      else regex_loop rest password
  end.

(** Lines 66-77: the value of [all_criteria_met] for one candidate. *)
Definition all_criteria_met (compiled_regexes : list Pattern)
    (is_dictionary_filter_active : bool) (dictionary_words : gset str)
    (ignore_case : bool) (password : str) : bool :=
  let met := true in
  let met :=
    if is_dictionary_filter_active then
      let password_to_check_in_dict :=
        if ignore_case then lower password else password in
      if bool_decide (password_to_check_in_dict ∉ dictionary_words)
      then false else met
    else met in
  if met && nonempty compiled_regexes
  then regex_loop compiled_regexes password
  else met.

(** The three counters of the line loop. *)
Record Counters := mkCounters {
  count_matched : Z;
  count_total_processed_lines : Z;
  count_valid_passwords : Z;
}.

Definition counters0 : Counters := mkCounters 0 0 0.

(** Lines 57-86: one iteration of the loop over the wordlist. *)
Definition line_step (output_file : OutFile)
    (compiled_regexes : list Pattern)
    (is_dictionary_filter_active : bool) (dictionary_words : gset str)
    (invert_match ignore_case : bool)
    (c : Counters) (raw_line : str) : Proc Counters :=
  let c := mkCounters (count_matched c)
             (count_total_processed_lines c + 1) (count_valid_passwords c) in
  let password := strip raw_line in
  if negb (truthy password) then ret c
  else
    let c := mkCounters (count_matched c)
               (count_total_processed_lines c) (count_valid_passwords c + 1) in
    let met := all_criteria_met compiled_regexes is_dictionary_filter_active
                 dictionary_words ignore_case password in
    let emit :=
      write output_file (password ++ nl) >>
      ret (mkCounters (count_matched c + 1)
             (count_total_processed_lines c) (count_valid_passwords c)) in
    if invert_match then
      if negb met then emit else ret c
    else
      if met then emit else ret c.

Definition process_lines (wordlist_file : InFile) (output_file : OutFile)
    (compiled_regexes : list Pattern)
    (is_dictionary_filter_active : bool) (dictionary_words : gset str)
    (invert_match ignore_case : bool) : Proc Counters :=
  for_each (line_step output_file compiled_regexes is_dictionary_filter_active
              dictionary_words invert_match ignore_case)
    wordlist_file counters0.

(** Lines 91-104: the summary line on the diagnostic stream. *)
Definition summary (output_file : OutFile) (c : Counters) : str :=
  lit "Processed " ++ str_of_int (count_valid_passwords c)
  ++ lit " valid passwords from "
  ++ str_of_int (count_total_processed_lines c) ++ lit " total lines. "
  ++ (if negb (is_stdout output_file)
      then lit "Filtered " ++ str_of_int (count_matched c) ++ lit " to "
           ++ file_name output_file
      else lit "Matched: " ++ str_of_int (count_matched c) ++ lit ".").

Definition filter_passwords (wordlist_file : InFile) (output_file : OutFile)
    (regex_patterns : option (list str)) (dictionary_file : option InFile)
    (invert_match ignore_case : bool) : Proc unit :=
  do compiled_regexes <- compile_patterns regex_patterns ignore_case;
  let dictionary_words := load_dictionary dictionary_file ignore_case in
  let is_dictionary_filter_active :=
    match dictionary_file with Some _ => true | None => false end in
  do c <- process_lines wordlist_file output_file compiled_regexes
            is_dictionary_filter_active dictionary_words
            invert_match ignore_case;
  eprint (summary output_file c).

End Core.

(** ** presets.py *)

Module Presets.

(** One catalog entry: the value stored under a canonical name. *)
Record Preset := mkPreset {
  id : str;
  regex : option str;
  description : str;
}.

(** The double quote, which the pattern text contains. *)
Definition dquote : str := [34%N].

(** The pattern text is that of the raw string literal, character for
    character (a backslash is an ordinary character in both notations). *)
Definition SPECIAL_CHARS_REGEX : str :=
  lit "[!@#$%^&*()_+\-=[\]{};\':" ++ dquote ++ lit "\\|,.<>/?~`]".

(** The catalog, in definition order. *)
Definition PRESETS : list (str * Preset) :=
  [ (lit "min_length_8",
     mkPreset (lit "ml8") (Some (lit "^.{8,}$"))
       (lit "Passwords with a minimum length of 8 characters."));
    (lit "min_length_12",
     mkPreset (lit "ml12") (Some (lit "^.{12,}$"))
       (lit "Passwords with a minimum length of 12 characters."));
    (lit "has_uppercase",
     mkPreset (lit "upper") (Some (lit "[A-Z]"))
       (lit "Passwords containing at least one uppercase letter."));
    (lit "has_lowercase",
     mkPreset (lit "lower") (Some (lit "[a-z]"))
       (lit "Passwords containing at least one lowercase letter."));
    (lit "has_digit",
     mkPreset (lit "digit") (Some (lit "[0-9]"))
       (lit "Passwords containing at least one digit."));
    (lit "has_special_char",
     mkPreset (lit "special") (Some SPECIAL_CHARS_REGEX)
       (lit "Passwords containing at least one special character ("
        ++ SPECIAL_CHARS_REGEX ++ lit ")."));
    (lit "has_consecutive_repeated_chars",
     mkPreset (lit "consec") (Some (lit "(.)\1"))
       (lit "Passwords with consecutive repeated characters (use --invert to exclude these)."));
    (lit "contains_common_pattern_password",
     mkPreset (lit "cmnpwd") (Some (lit "password"))
       (lit "Passwords containing the substring 'password' (use --invert and --ignore-case to exclude)."));
    (lit "in_dictionary",
     mkPreset (lit "dict") None
       (lit "Passwords found in a provided dictionary file (use --invert to exclude, requires --dictionary-file)."));
    (lit "strong_8_plus_all_types",
     mkPreset (lit "s8all")
       (Some (lit "^(?=.*[a-z])(?=.*[A-Z])(?=.*[0-9])(?=.*"
              ++ SPECIAL_CHARS_REGEX ++ lit ").{8,}$"))
       (lit "Min 8 chars, 1 lower, 1 upper, 1 digit, 1 special."));
    (lit "strong_12_plus_all_types",
     mkPreset (lit "s12all")
       (Some (lit "^(?=.*[a-z])(?=.*[A-Z])(?=.*[0-9])(?=.*"
              ++ SPECIAL_CHARS_REGEX ++ lit ").{12,}$"))
       (lit "Min 12 chars, 1 lower, 1 upper, 1 digit, 1 special."));
    (lit "strong_10_plus_3_of_4_types_LUD",
     mkPreset (lit "s10lud")
       (Some (lit "^(?=(?:.*[a-z]){1,})(?=(?:.*[A-Z]){1,})(?=(?:.*[0-9]){1,}).{10,}$"))
       (lit "Min 10 chars, at least 1 lower, 1 upper, 1 digit."));
    (lit "only_lowercase",
     mkPreset (lit "onlylow") (Some (lit "^[a-z]+$"))
       (lit "Passwords consisting only of lowercase letters."));
    (lit "only_uppercase",
     mkPreset (lit "onlyup") (Some (lit "^[A-Z]+$"))
       (lit "Passwords consisting only of uppercase letters."));
    (lit "only_digits",
     mkPreset (lit "onlydig") (Some (lit "^[0-9]+$"))
       (lit "Passwords consisting only of digits."));
    (lit "only_alphabetic",
     mkPreset (lit "onlyalpha") (Some (lit "^[a-zA-Z]+$"))
       (lit "Passwords consisting only of alphabetic characters."));
    (lit "only_alphanumeric",
     mkPreset (lit "onlyalnum") (Some (lit "^[a-zA-Z0-9]+$"))
       (lit "Passwords consisting only of alphanumeric characters."));
    (lit "starts_with_letter",
     mkPreset (lit "startlet") (Some (lit "^[a-zA-Z]"))
       (lit "Passwords starting with an alphabetic character."));
    (lit "ends_with_digit",
     mkPreset (lit "enddig") (Some (lit "[0-9]$"))
       (lit "Passwords ending with a digit."));
    (lit "no_digits",
     mkPreset (lit "nodig") (Some (lit "^[^0-9]*$"))
       (lit "Passwords containing no digits."));
    (lit "no_letters",
     mkPreset (lit "nolet") (Some (lit "^[^a-zA-Z]*$"))
       (lit "Passwords containing no letters (alphabetic characters).")) ].

(** The two operations the program performs on the catalog:
    [k in d] and [d[k]]. *)
Fixpoint dict_get {V} (d : list (str * V)) (k : str) : option V :=
  match d with
  | [] => None
  | (k', v) :: d' => if bool_decide (k = k') then Some v else dict_get d' k
  end.

Definition dict_in {V} (k : str) (d : list (str * V)) : bool :=
  match dict_get d k with Some _ => true | None => false end.

(** [{details[id]: name for name, details in d.items()}]: the
    comprehension assigns the keys in the order of [d], a later assignment
    to the same key replacing the earlier one. *)
Definition id_index (d : list (str * Preset)) : gmap str str :=
  fold_left (fun m '(name, details) => <[id details := name]> m) d ∅.

Definition PRESET_ID_TO_NAME_MAP : gmap str str := id_index PRESETS.

Definition get_preset_by_name_or_id (identifier : str) : option str :=
  if dict_in identifier PRESETS then Some identifier
  else match PRESET_ID_TO_NAME_MAP !! identifier with
       | Some name => Some name
       | None => None
       end.

(** [list(m.keys())] for the index built from [d]: a dictionary lists its
    keys in the order of their first assignment. *)
Definition id_keys (d : list (str * Preset)) : list str :=
  fold_left (fun ks '(_, details) =>
               if bool_decide (id details ∈ ks) then ks
               else ks ++ [id details]) d [].

(** [list(PRESETS.keys()) + list(PRESET_ID_TO_NAME_MAP.keys())], the values
    the argument parser admits for [--presets]. *)
Definition ALL_PRESET_CHOICES : list str :=
  map fst PRESETS ++ id_keys PRESETS.

End Presets.

(** ** cli.py *)

Module Cli.
Import Presets.

(** The namespace [parse_args] returns.  Reading the command line is the
    argument parser's work; [main] is modelled from its result onwards.
    The two tests of [sys.argv[1]] at the top of [main] that come before
    parsing are outside the model ([--list-presets] is also handled after
    parsing, through [list_presets]). *)
Record Namespace := mkNamespace {
  wordlist : InFile;
  presets : option (list str);
  regex_arg : option str;
  output : OutFile;
  invert_match : bool;
  ignore_case : bool;
  dictionary_file : option InFile;
  list_presets : bool;
}.

Section Main.
Context {rt : Runtime}.

(** [parser.error(message)]: usage and message on the diagnostic stream,
    then exit status 2. *)
Definition parser_error {A} (message : str) : Proc A :=
  fun w =>
    (Exit 2,
     mkWorld (stdout w) (stderr w ++ [parser_error_text message]) (outfile w)).

Definition list_presets_info : Proc unit :=
  print (lit "Available presets (--presets ID_OR_NAME ...):") >>
  print (ljust 8 (lit "ID") ++ lit " " ++ ljust 30 (lit "Name") ++ lit " "
         ++ lit "Description") >>
  print (repeat 45%N 7 ++ lit " " ++ repeat 45%N 29 ++ lit " "
         ++ repeat 45%N 40) >>
  for_each
    (fun (_ : unit) '(name, details) =>
       print (ljust 8 (id details) ++ lit " " ++ ljust 30 name ++ lit " "
              ++ description details))
    PRESETS tt.

(** Lines 106-115: one identifier of [args.presets]. *)
Definition resolve_step (st : list str * bool) (preset_identifier : str)
    : Proc (list str * bool) :=
  let '(chosen_preset_full_names, uses_in_dictionary_preset) := st in
  match get_preset_by_name_or_id preset_identifier with
  | None =>
      parser_error (lit "Unknown preset identifier: " ++ preset_identifier)
  | Some full_name =>
      if negb (truthy full_name) then
        parser_error (lit "Unknown preset identifier: " ++ preset_identifier)
      else
        let chosen_preset_full_names :=
          if bool_decide (full_name ∉ chosen_preset_full_names)
          then chosen_preset_full_names ++ [full_name]
          else chosen_preset_full_names in
        let uses_in_dictionary_preset :=
          if bool_decide (full_name = lit "in_dictionary") then true
          else uses_in_dictionary_preset in
        ret (chosen_preset_full_names, uses_in_dictionary_preset)
  end.

(** Lines 132-137: the pattern of one chosen preset, appended unless it is
    [None] (or empty).  Every chosen name is a key of the catalog; a missing
    key would be an uncaught [KeyError], which ends the process with
    status 1. *)
Definition pattern_step (active_regex_patterns : list str) (full_name : str)
    : Proc (list str) :=
  match dict_get PRESETS full_name with
  | None => sys_exit 1
  | Some preset_obj =>
      match regex preset_obj with
      | Some r =>
          if truthy r then ret (active_regex_patterns ++ [r])
          else ret active_regex_patterns
      | None => ret active_regex_patterns
      end
  end.

Definition is_some {A} (o : option A) : bool :=
  match o with Some _ => true | None => false end.

(** Lines 102-145: preset mode. *)
Definition preset_mode (args : Namespace) (ps : list str)
    : Proc (list str * option InFile) :=
  do st <- for_each resolve_step ps ([], false);
  let '(chosen_preset_full_names, uses_in_dictionary_preset) := st in
  (if uses_in_dictionary_preset && negb (is_some (dictionary_file args))
   then parser_error (lit "--dictionary-file is required when using the 'in_dictionary' (or 'dict') preset.")
   else ret tt) >>
  do active_dictionary_file <-
    (if uses_in_dictionary_preset then ret (dictionary_file args)
     else if is_some (dictionary_file args) then
       eprint (lit "Warning: --dictionary-file is provided but 'in_dictionary' (or 'dict') preset is not selected. The dictionary file will be ignored.") >>
       ret None
     else ret None);
  do active_regex_patterns <-
    for_each pattern_step chosen_preset_full_names [];
  (if negb (nonempty active_regex_patterns) && negb uses_in_dictionary_preset
   then eprint (lit "Warning: No effective filter criteria selected from presets.")
   else ret tt) >>
  ret (active_regex_patterns, active_dictionary_file).

(** Lines 147-153: custom regex mode. *)
Definition regex_mode (args : Namespace) (r : str)
    : Proc (list str * option InFile) :=
  (if is_some (dictionary_file args)
   then eprint (lit "Warning: --dictionary-file is ignored when using custom --regex.")
   else ret tt) >>
  ret ([r], None).

(** Lines 97-153: [active_regex_patterns] and [active_dictionary_file]. *)
Definition select (args : Namespace) : Proc (list str * option InFile) :=
  match presets args with
  | Some (p :: ps) => preset_mode args (p :: ps)
  | _ =>
      match regex_arg args with
      | Some (c :: r) => regex_mode args (c :: r)
      | _ => ret ([], None)
      end
  end.

(** [main], after [parse_args].  The wordlist is an open file, hence true:
    the test [if not args.wordlist] never fires and is left out. *)
Definition main (args : Namespace) : Proc unit :=
  if list_presets args then list_presets_info >> sys_exit 0
  else
    do sel <- select args;
    let '(active_regex_patterns, active_dictionary_file) := sel in
    if negb (nonempty active_regex_patterns)
       && negb (is_some active_dictionary_file)
    then parser_error (lit "No filtering criteria specified. Use --presets or --regex.")
    else
      filter_passwords (wordlist args) (output args)
        (Some active_regex_patterns) active_dictionary_file
        (invert_match args) (ignore_case args).

End Main.
End Cli.

(** ** A regex engine for the catalog's pattern language

    An instance of [Runtime] that the catalog patterns can be run on.  It
    covers the fragment of the pattern syntax the catalog and the examples
    are written in: literals, [.], [^], [$], character sets with ranges,
    negation and escaped punctuation, groups (capturing, [(?:], [(?=],
    [(?!]), alternation, the greedy quantifiers and single-digit back
    references, over ASCII pattern text.  A pattern outside the fragment is
    refused by this instance.  Matching is by backtracking: [run] lists the
    states a node can end in, in the order a backtracking matcher tries them. *)

Module Sre.

(** Case tables for the code points outside ASCII; on ASCII the tables are
    fixed below. *)
Class CaseTables := {
  uni_tolower : char -> char;
  uni_iscased : char -> bool;
}.

Section Engine.
Context {ct : CaseTables}.

Definition tolower (c : char) : char :=
  (if c <? 128 then (if (65 <=? c) && (c <=? 90) then c + 32 else c)
   else uni_tolower c)%N.

Definition iscased (c : char) : bool :=
  (if c <? 128
   then (65 <=? c) && (c <=? 90) || (97 <=? c) && (c <=? 122)
   else uni_iscased c)%N.

(** The other characters an ignore-case match for a lower-case ASCII
    character accepts: dotless i for [i], long s for [s]. *)
Definition fixes (lo : char) : list char :=
  (if lo =? 105 then [305] else if lo =? 115 then [383] else [])%N.

Inductive item :=
| ILit (c : char)
| IRange (lo hi : char).

Inductive node :=
| Literal (c : char)
| AnyChar
| InSet (negate : bool) (items : list item)
| AtBeginning
| AtEnd
| Empty
| Cat (a b : node)
| Branch (a b : node)
| Repeat (lo : nat) (hi : option nat) (a : node)
| Group (n : nat) (a : node)
| GroupRef (n : nat)
| Assert (a : node)
| AssertNot (a : node).

(** *** Parsing *)

Definition is_chr (c : char) (a : ascii) : bool := (c =? N_of_ascii a)%N.

Definition is_digit (c : char) : bool := ((48 <=? c) && (c <=? 57))%N.

Definition is_alnum (c : char) : bool :=
  (is_digit c || (65 <=? c) && (c <=? 90) || (97 <=? c) && (c <=? 122))%N.

Definition digit_val (c : char) : nat := N.to_nat (c - 48).

(** A decimal number at the head of [s]: its digits' value (if there is at
    least one digit) and the rest. *)
Fixpoint number (s : str) (acc : option nat) : option nat * str :=
  match s with
  | c :: s' =>
      if is_digit c
      then number s' (Some (10 * default 0%nat acc + digit_val c)%nat)
      else (acc, s)
  | [] => (acc, s)
  end.

(** One character of a set, plain or escaped. *)
Definition set_char (s : str) : option (char * str) :=
  match s with
  | c :: s' =>
      if is_chr c "\" then
        match s' with
        | e :: s'' =>
            if is_alnum e || negb (e <? 128)%N then None else Some (e, s'')
        | [] => None
        end
      else if (c <? 128)%N then Some (c, s') else None
  | [] => None
  end.

(** The items of a set up to the closing bracket; [first] is true while no
    item has been read, where a closing bracket stands for itself. *)
Fixpoint set_items (fuel : nat) (first : bool) (s : str)
    : option (list item * str) :=
  match fuel with
  | O => None
  | S fuel' =>
      match s with
      | [] => None
      | c :: s' =>
          if is_chr c "]" && negb first then Some ([], s')
          else
            match set_char s with
            | None => None
            | Some (c1, s1) =>
                match s1 with
                | d :: s2 =>
                    if is_chr d "-" && negb (match s2 with
                                         | e :: _ => is_chr e "]"
                                         | [] => true
                                         end)
                    then
                      match set_char s2 with
                      | None => None
                      | Some (c2, s3) =>
                          if (c2 <? c1)%N then None
                          else
                            match set_items fuel' false s3 with
                            | Some (its, r) => Some (IRange c1 c2 :: its, r)
                            | None => None
                            end
                      end
                    else
                      match set_items fuel' false s1 with
                      | Some (its, r) => Some (ILit c1 :: its, r)
                      | None => None
                      end
                | [] => None
                end
            end
      end
  end.

Definition parse_set (s : str) : option (node * str) :=
  let '(neg, s) :=
    match s with
    | c :: s' => if is_chr c "^" then (true, s') else (false, s)
    | [] => (false, s)
    end in
  match set_items (S (length s)) true s with
  | Some (its, r) => Some (InSet neg its, r)
  | None => None
  end.

(** A quantifier at the head of [s]: its bounds and the rest.  [None] when
    there is none; [Some None] when what follows is outside the fragment. *)
Definition quantifier (s : str)
    : option (option (nat * option nat * str)) :=
  match s with
  | c :: s' =>
      if is_chr c "*" then Some (Some (0%nat, None, s'))
      else if is_chr c "+" then Some (Some (1%nat, None, s'))
      else if is_chr c "?" then Some (Some (0%nat, Some 1%nat, s'))
      else if is_chr c "{" then
        let '(lo, s1) := number s' None in
        match s1 with
        | d :: s2 =>
            if is_chr d "}" then
              match lo with
              | Some n => Some (Some (n, Some n, s2))
              | None => Some None
              end
            else if is_chr d "," then
              let '(hi, s3) := number s2 None in
              match s3 with
              | e :: s4 =>
                  if is_chr e "}" then
                    match hi with
                    | Some m =>
                        if (m <? default 0 lo)%nat then Some None
                        else Some (Some (default 0%nat lo, Some m, s4))
                    | None =>
                        match lo with
                        | Some n => Some (Some (n, None, s4))
                        | None => Some None
                        end
                    end
                  else Some None
              | [] => Some None
              end
            else Some None
        | [] => Some None
        end
      else None
  | [] => None
  end.

(** Group numbering: the number of the next capturing group and the groups
    already closed, which a back reference may name. *)
Record pstate := mkPstate {
  next_group : nat;
  closed : list nat;
}.

Definition starts_quantifier (s : str) : bool :=
  match s with
  | c :: _ => is_chr c "*" || is_chr c "+" || is_chr c "?" || is_chr c "{"
  | [] => false
  end.

(** Apply the quantifier that follows an atom, if any. *)
Definition quantify (a : node) (s : str) : option (node * str) :=
  match quantifier s with
  | None => Some (a, s)
  | Some None => None
  | Some (Some (lo, hi, s')) =>
      match a with
      | AtBeginning | AtEnd => None
      | _ => if starts_quantifier s' then None
             else Some (Repeat lo hi a, s')
      end
  end.

Definition expect (a : ascii) (s : str) : option str :=
  match s with
  | c :: s' => if is_chr c a then Some s' else None
  | [] => None
  end.

Fixpoint parse_alt (fuel : nat) (s : str) (ps : pstate)
    : option (node * str * pstate) :=
  match fuel with
  | O => None
  | S fuel' =>
      match parse_seq fuel' s ps with
      | Some (a, s1, ps1) =>
          match s1 with
          | c :: s2 =>
              if is_chr c "|" then
                match parse_alt fuel' s2 ps1 with
                | Some (b, s3, ps3) => Some (Branch a b, s3, ps3)
                | None => None
                end
              else Some (a, s1, ps1)
          | [] => Some (a, s1, ps1)
          end
      | None => None
      end
  end
with parse_seq (fuel : nat) (s : str) (ps : pstate)
    : option (node * str * pstate) :=
  match fuel with
  | O => None
  | S fuel' =>
      match s with
      | [] => Some (Empty, s, ps)
      | c :: _ =>
          if is_chr c "|" || is_chr c ")" then Some (Empty, s, ps)
          else
            match parse_atom fuel' s ps with
            | Some (a, s1, ps1) =>
                match quantify a s1 with
                | Some (a', s2) =>
                    match parse_seq fuel' s2 ps1 with
                    | Some (b, s3, ps3) => Some (Cat a' b, s3, ps3)
                    | None => None
                    end
                | None => None
                end
            | None => None
            end
      end
  end
with parse_atom (fuel : nat) (s : str) (ps : pstate)
    : option (node * str * pstate) :=
  match fuel with
  | O => None
  | S fuel' =>
      match s with
      | [] => None
      | c :: s' =>
          if is_chr c "." then Some (AnyChar, s', ps)
          else if is_chr c "^" then Some (AtBeginning, s', ps)
          else if is_chr c "$" then Some (AtEnd, s', ps)
          else if is_chr c "[" then
            match parse_set s' with
            | Some (a, r) => Some (a, r, ps)
            | None => None
            end
          else if is_chr c "\" then
            match s' with
            | e :: s'' =>
                if is_digit e then
                  if is_chr e "0" || match s'' with
                                 | d :: _ => is_digit d
                                 | [] => false
                                 end
                  then None
                  else if bool_decide (digit_val e ∈ closed ps)
                       then Some (GroupRef (digit_val e), s'', ps)
                       else None
                else if is_alnum e || negb (e <? 128)%N then None
                else Some (Literal e, s'', ps)
            | [] => None
            end
          else if is_chr c "(" then
            match s' with
            | q :: s'' =>
                if is_chr q "?" then
                  match s'' with
                  | k :: s3 =>
                      if is_chr k ":" || is_chr k "=" || is_chr k "!" then
                        match parse_alt fuel' s3 ps with
                        | Some (a, s4, ps4) =>
                            match expect ")" s4 with
                            | Some s5 =>
                                Some (if is_chr k ":" then a
                                      else if is_chr k "=" then Assert a
                                      else AssertNot a, s5, ps4)
                            | None => None
                            end
                        | None => None
                        end
                      else None
                  | [] => None
                  end
                else
                  let n := next_group ps in
                  match parse_alt fuel' s'
                          (mkPstate (S n) (closed ps)) with
                  | Some (a, s4, ps4) =>
                      match expect ")" s4 with
                      | Some s5 =>
                          Some (Group n a, s5,
                                mkPstate (next_group ps4) (n :: closed ps4))
                      | None => None
                      end
                  | None => None
                  end
            | [] => None
            end
          else if is_chr c "*" || is_chr c "+" || is_chr c "?" || is_chr c "{" || is_chr c ")"
                  || negb (c <? 128)%N
          then None
          else Some (Literal c, s', ps)
      end
  end.

(** The whole pattern text must be one alternation. *)
Definition parse (p : str) : option node :=
  match parse_alt (4 * length p + 4) p (mkPstate 1 []) with
  | Some (a, [], _) => Some a
  | _ => None
  end.

(** *** Matching *)

(** A position in the subject: the number of characters before it, the
    characters from it on, and the text of the groups matched so far. *)
Record state := mkState {
  pos : nat;
  rest : str;
  groups : list (nat * str);
}.

Definition advance (k : nat) (st : state) : state :=
  mkState (pos st + k) (skipn k (rest st)) (groups st).

Definition in_items (c : char) (items : list item) : bool :=
  existsb (fun it =>
             match it with
             | ILit a => (c =? a)%N
             | IRange lo hi => ((lo <=? c) && (c <=? hi))%N
             end) items.

Definition item_chars (it : item) : list char :=
  match it with
  | ILit c => [c]
  | IRange lo hi =>
      map N.of_nat (seq (N.to_nat lo) (N.to_nat hi + 1 - N.to_nat lo))
  end.

(** A literal of the pattern against a character of the subject.  Under
    the ignore-case flag a cased literal is compared in lower case. *)
Definition lit_match (ic : bool) (c ch : char) : bool :=
  if ic && iscased c then
    let lo := tolower c in
    existsb (N.eqb (tolower ch)) (lo :: fixes lo)
  else (ch =? c)%N.

(** A set against a character of the subject.  Under the ignore-case flag
    a set with a cased member holds the lower-case forms of its members,
    and the character is looked up in lower case. *)
Definition set_match (ic : bool) (negate : bool) (items : list item)
    (ch : char) : bool :=
  let members := flat_map item_chars items in
  if ic && existsb iscased members then
    xorb negate
      (existsb (fun i => existsb (N.eqb (tolower ch))
                           (tolower i :: fixes (tolower i))) members)
  else xorb negate (in_items ch items).

Fixpoint group_text (n : nat) (gs : list (nat * str)) : option str :=
  match gs with
  | [] => None
  | (m, t) :: gs' => if (m =? n)%nat then Some t else group_text n gs'
  end.

(** Whether [t] starts [s], character by character. *)
Fixpoint starts_with (ic : bool) (t s : str) : bool :=
  match t, s with
  | [], _ => true
  | a :: t', b :: s' =>
      (if ic then (tolower a =? tolower b)%N else (a =? b)%N)
      && starts_with ic t' s'
  | _ :: _, [] => false
  end.

(** Greedy repetition of [f]: another round first, stopping second.  Once
    the minimum is reached a round that consumes nothing is not repeated. *)
Fixpoint rep (f : state -> list state) (fuel lo : nat) (hi : option nat)
    (st : state) : list state :=
  match fuel with
  | O => if (lo =? 0)%nat then [st] else []
  | S fuel' =>
      (match hi with
       | Some O => []
       | _ =>
           flat_map
             (fun st' =>
                if (lo =? 0)%nat && (pos st' =? pos st)%nat then []
                else rep f fuel' (Nat.pred lo) (option_map Nat.pred hi) st')
             (f st)
       end)
      ++ (if (lo =? 0)%nat then [st] else [])
  end.

(** The states in which a match of the node from [st] can end. *)
Fixpoint run (ic : bool) (a : node) (st : state) : list state :=
  match a with
  | Literal c =>
      match rest st with
      | ch :: _ => if lit_match ic c ch then [advance 1 st] else []
      | [] => []
      end
  | AnyChar =>
      match rest st with
      | ch :: _ => if (ch =? 10)%N then [] else [advance 1 st]
      | [] => []
      end
  | InSet negate items =>
      match rest st with
      | ch :: _ => if set_match ic negate items ch then [advance 1 st] else []
      | [] => []
      end
  | AtBeginning => if (pos st =? 0)%nat then [st] else []
  | AtEnd =>
      match rest st with
      | [] => [st]
      | [c] => if (c =? 10)%N then [st] else []
      | _ => []
      end
  | Empty => [st]
  | Cat a b => flat_map (run ic b) (run ic a st)
  | Branch a b => run ic a st ++ run ic b st
  | Repeat lo hi a => rep (run ic a) (lo + length (rest st)) lo hi st
  | Group n a =>
      map (fun st' =>
             mkState (pos st') (rest st')
               ((n, firstn (pos st' - pos st) (rest st)) :: groups st'))
        (run ic a st)
  | GroupRef n =>
      match group_text n (groups st) with
      | Some t =>
          if starts_with ic t (rest st) then [advance (length t) st] else []
      | None => []
      end
  | Assert a =>
      match run ic a st with
      | st' :: _ => [mkState (pos st) (rest st) (groups st')]
      | [] => []
      end
  | AssertNot a =>
      match run ic a st with
      | [] => [st]
      | _ => []
      end
  end.

(** [dots k s]: [s] starts with [k] characters that [.] accepts. *)
Fixpoint dots (k : nat) (s : str) : bool :=
  match k, s with
  | O, _ => true
  | S k', c :: s' => negb (c =? 10)%N && dots k' s'
  | S _, [] => false
  end.

(** A compiled pattern: the parsed text and the flag it was compiled with. *)
Record compiled := mkCompiled {
  ast : node;
  ignorecase : bool;
}.

Definition compile (p : str) (ic : bool) : compiled + str :=
  match parse p with
  | Some a => inl (mkCompiled a ic)
  | None => inr (lit "unsupported or invalid pattern")
  end.

(** [rx.search(s)]: a match starting at some position of [s], the end
    included. *)
Definition search (rx : compiled) (s : str) : bool :=
  existsb (fun i => nonempty (run (ignorecase rx) (ast rx)
                                (mkState i (skipn i s) [])))
    (seq 0 (S (length s))).

(** *** The shapes the catalog's composite rules parse to *)

Definition lower_items : list item := [IRange 97 122]%N.
Definition upper_items : list item := [IRange 65 90]%N.
Definition digit_items : list item := [IRange 48 57]%N.
Definition special_items : list item :=
  map ILit
    [33; 64; 35; 36; 37; 94; 38; 42; 40; 41; 95; 43; 45; 61; 91; 93; 123;
     125; 59; 39; 58; 34; 92; 124; 44; 46; 60; 62; 47; 63; 126; 96]%N.

(** A set on its own: some character of the set. *)
Definition has (items : list item) : node := Cat (InSet false items) Empty.

(** [.*] and then a character of the set. *)
Definition reach (items : list item) : node :=
  Cat (Repeat 0 None AnyChar) (Cat (InSet false items) Empty).

(** [.{n,}$] *)
Definition at_least (n : nat) : node :=
  Cat (Repeat n None AnyChar) (Cat AtEnd Empty).

Definition min_length (n : nat) : node := Cat AtBeginning (at_least n).

Definition strong (n : nat) : node :=
  Cat AtBeginning
    (Cat (Assert (reach lower_items))
       (Cat (Assert (reach upper_items))
          (Cat (Assert (reach digit_items))
             (Cat (Assert (reach special_items)) (at_least n))))).

End Engine.

(** The engine as a [Runtime], given the interpreter's other services. *)
Definition runtime (ct : CaseTables) (str_lower : str -> str)
    (error_text : str -> str) : Runtime :=
  {| lower := str_lower;
     Pattern := compiled;
     re_compile := compile;
     re_search := search;
     parser_error_text := error_text |}.

End Sre.

(** ** A closed runtime

    The engine with case tables that leave the code points outside ASCII
    alone, an ASCII [str.lower], and a fixed rendering of the argument
    parser's error text.  The examples below are evaluated on it. *)

Definition plain_tables : Sre.CaseTables :=
  {| Sre.uni_tolower := fun c => c; Sre.uni_iscased := fun _ => false |}.

Definition ascii_lower (s : str) : str := map (@Sre.tolower plain_tables) s.

Definition usage_error_text (message : str) : str :=
  lit "usage: pwfilter [-h] (--presets PRESET_ID_OR_NAME [PRESET_ID_OR_NAME ...] | --regex REGEX) wordlist"
  ++ nl ++ lit "pwfilter: error: " ++ message ++ nl.

Definition plain_runtime : Runtime :=
  Sre.runtime plain_tables ascii_lower usage_error_text.

(** ** Vocabulary of the statements *)

(** The candidates of a wordlist: its lines trimmed, the blank ones left
    out. *)
Definition candidates (wordlist_file : InFile) : list str :=
  List.filter truthy (map strip wordlist_file).

(** A written chunk without its line terminator. *)
Definition chomp (chunk : str) : str := removelast chunk.

(** The lines an output file holds. *)
Definition emitted_lines (f : OutFile) (w : World) : list str :=
  map chomp (sink f w).

(** The chunks appended to [f]. *)
Definition write_all (f : OutFile) (chunks : list str) (w : World) : World :=
  match f with
  | SysStdout => mkWorld (stdout w ++ chunks) (stderr w) (outfile w)
  | TextFile _ => mkWorld (stdout w) (stderr w) (outfile w ++ chunks)
  end.

Definition terminated (p : str) : str := p ++ nl.

Section Selection.
Context {rt : Runtime}.

(** The decision on one candidate: the flag [invert_match] flips the
    verdict of the criteria. *)
Definition keeps (compiled_regexes : list Pattern)
    (is_dictionary_filter_active : bool) (dictionary_words : gset str)
    (invert_match ignore_case : bool) (password : str) : bool :=
  xorb (all_criteria_met compiled_regexes is_dictionary_filter_active
          dictionary_words ignore_case password) invert_match.

(** The candidates of a wordlist that are kept, in order. *)
Definition selected (compiled_regexes : list Pattern)
    (is_dictionary_filter_active : bool) (dictionary_words : gset str)
    (invert_match ignore_case : bool) (wordlist_file : InFile) : list str :=
  List.filter (keeps compiled_regexes is_dictionary_filter_active
                 dictionary_words invert_match ignore_case)
    (candidates wordlist_file).

End Selection.

(** Two worlds with the same standard output and output file: what lies
    between them went to the diagnostic stream only. *)
Definition quiet (w w' : World) : Prop :=
  stdout w' = stdout w /\ outfile w' = outfile w.

(** The selection of [main] in preset mode, as values: the name an
    identifier resolves to, the patterns a chosen name contributes, the
    patterns compiled together, and the test the line loop then applies to
    a candidate ([None] when the run ends before the loop). *)
Section Plan.
Context {rt : Runtime}.

Definition resolved (preset_identifier : str) : option str :=
  match Presets.get_preset_by_name_or_id preset_identifier with
  | Some full_name => if truthy full_name then Some full_name else None
  | None => None
  end.

Definition is_dictionary_rule (full_name : str) : bool :=
  bool_decide (full_name = lit "in_dictionary").

Definition patterns_of (full_name : str) : list str :=
  match Presets.dict_get Presets.PRESETS full_name with
  | Some preset_obj =>
      match Presets.regex preset_obj with
      | Some r => if truthy r then [r] else []
      | None => []
      end
  | None => []
  end.

Fixpoint compile_list (ps : list str) (ignore_case : bool)
    : option (list Pattern) :=
  match ps with
  | [] => Some []
  | p :: ps' =>
      match re_compile p ignore_case with
      | inl rx =>
          match compile_list ps' ignore_case with
          | Some rxs => Some (rx :: rxs)
          | None => None
          end
      | inr _ => None
      end
  end.

Definition criteria (chosen : list str) (uses_in_dictionary_preset : bool)
    (dictionary_file : option InFile) (ignore_case : bool)
    : option (str -> bool) :=
  if uses_in_dictionary_preset && negb (Cli.is_some dictionary_file)
  then None
  else
    let active_dictionary_file :=
      if uses_in_dictionary_preset then dictionary_file else None in
    let active_regex_patterns := flat_map patterns_of chosen in
    if negb (nonempty active_regex_patterns)
       && negb (Cli.is_some active_dictionary_file)
    then None
    else
      match compile_list active_regex_patterns ignore_case with
      | Some rxs =>
          Some (all_criteria_met rxs (Cli.is_some active_dictionary_file)
                  (load_dictionary active_dictionary_file ignore_case)
                  ignore_case)
      | None => None
      end.

End Plan.

(** ** tests/test_pwfilter.py *)

(** [load_test_passwords], lines 26-34, on the lines of the file it opens:
    the set of the trimmed lines that are not empty. *)
Definition load_test_passwords (lines : InFile) : gset str :=
  fold_left (fun passwords line =>
               let stripped_line := strip line in
               if truthy stripped_line then {[ stripped_line ]} ∪ passwords
               else passwords) lines ∅.

(** The rows [list_presets_info] prints, lines 12-18 of cli.py. *)
Definition listing_rows : list str :=
  [ terminated (lit "Available presets (--presets ID_OR_NAME ...):");
    terminated (ljust 8 (lit "ID") ++ lit " " ++ ljust 30 (lit "Name")
                ++ lit " " ++ lit "Description");
    terminated (repeat 45%N 7 ++ lit " " ++ repeat 45%N 29 ++ lit " "
                ++ repeat 45%N 40) ]
  ++ map (fun '(name, details) =>
            terminated (ljust 8 (Presets.id details) ++ lit " "
                        ++ ljust 30 name ++ lit " "
                        ++ Presets.description details))
       Presets.PRESETS.

(** * Properties *)

(** ** Trimming *)

Lemma lstrip_head (s r : str) (c : char) :
  lstrip s = c :: r -> isspace c = false.
Proof.
  induction s as [|a s IH]; simpl; [discriminate|].
  destruct (isspace a) eqn:Ha; [exact IH|].
  intros [= -> _]. exact Ha.
Qed.

Lemma lstrip_blank (s : str) : forallb isspace s = true -> lstrip s = [].
Proof.
  induction s as [|a s IH]; simpl; [reflexivity|].
  intros [Ha Hs]%andb_prop. rewrite Ha. auto.
Qed.

Lemma rstrip_snoc (s : str) (c : char) :
  rstrip (s ++ [c]) = if isspace c then rstrip s else s ++ [c].
Proof.
  unfold rstrip. rewrite rev_app_distr. simpl.
  destruct (isspace c); [reflexivity|].
  simpl. now rewrite rev_involutive.
Qed.

Lemma strip_blank (s : str) : forallb isspace s = true -> strip s = [].
Proof.
  intros H. unfold strip. now rewrite (lstrip_blank s H).
Qed.

(** A trimmed, non-empty string followed by a line terminator trims back to
    itself. *)
Lemma strip_terminated (raw : str) :
  strip raw <> [] -> strip (terminated (strip raw)) = strip raw.
Proof.
  unfold strip, terminated.
  set (q := lstrip raw).
  assert (Hq : forall c r, q = c :: r -> isspace c = false)
    by (intros c r; apply lstrip_head).
  clearbody q. intros Hne.
  assert (Hpre : exists t, q = rstrip q ++ t).
  { clear. induction q as [|c q IH] using rev_ind.
    - now exists [].
    - rewrite rstrip_snoc. destruct (isspace c).
      + destruct IH as [t Ht]. exists (t ++ [c]).
        now rewrite app_assoc, <- Ht.
      + exists []. now rewrite app_nil_r. }
  destruct (rstrip q) as [|c p] eqn:Ep; [congruence|].
  destruct Hpre as [t Ht].
  assert (Hc : isspace c = false) by (apply (Hq c (p ++ t)); exact Ht).
  assert (Hlast : forall r d, c :: p = r ++ [d] -> isspace d = false).
  { intros r d E. rewrite <- Ep in E. unfold rstrip in E.
    apply (f_equal (@rev _)) in E.
    rewrite rev_involutive, rev_app_distr in E. simpl in E.
    eapply lstrip_head; exact E. }
  simpl. rewrite Hc. change (c :: p ++ nl) with ((c :: p) ++ [10%N]).
  rewrite rstrip_snoc. change (isspace 10%N) with true.
  destruct (exists_last (l := c :: p)) as [r [d E]]; [discriminate|].
  rewrite E, rstrip_snoc, (Hlast r d E). reflexivity.
Qed.

Lemma chomp_terminated (p : str) : chomp (terminated p) = p.
Proof. apply removelast_last. Qed.

(** ** The line loop *)

Section CoreFacts.
Context {rt : Runtime}.

Lemma regex_loop_true (rxs : list Pattern) (p : str) :
  regex_loop rxs p = true <-> forall rx, In rx rxs -> re_search rx p = true.
Proof.
  induction rxs as [|rx rxs IH]; simpl.
  - split; [intros _ ? []|reflexivity].
  - destruct (re_search rx p) eqn:E; simpl.
    + rewrite IH. split.
      * intros H r [<-|Hr]; auto.
      * intros H r Hr. apply H. now right.
    + split; [discriminate|]. intros H. rewrite <- E. apply H. now left.
Qed.

Lemma regex_loop_app (r1 r2 : list Pattern) (p : str) :
  regex_loop (r1 ++ r2) p = regex_loop r1 p && regex_loop r2 p.
Proof.
  induction r1 as [|rx r1 IH]; simpl; [reflexivity|].
  destruct (re_search rx p); simpl; [exact IH|reflexivity].
Qed.

(** The criteria as a conjunction: the dictionary test, when active, and
    the pattern loop. *)
Lemma all_criteria_met_eq (rxs : list Pattern) (act : bool)
    (words : gset str) (ic : bool) (p : str) :
  all_criteria_met rxs act words ic p
  = (if act then bool_decide ((if ic then lower p else p) ∈ words) else true)
    && regex_loop rxs p.
Proof.
  unfold all_criteria_met. destruct act; simpl.
  - destruct (decide ((if ic then lower p else p) ∈ words)) as [Hin|Hout].
    + rewrite (bool_decide_eq_false_2 _ (fun H => H Hin)).
      rewrite (bool_decide_eq_true_2 _ Hin). simpl.
      destruct rxs; reflexivity.
    + rewrite (bool_decide_eq_true_2 _ Hout).
      rewrite (bool_decide_eq_false_2 _ Hout). reflexivity.
  - destruct rxs; reflexivity.
Qed.

Lemma write_all_nil (out : OutFile) (w : World) : write_all out [] w = w.
Proof. destruct out, w; simpl; now rewrite app_nil_r. Qed.

Lemma write_all_cons (out : OutFile) (x : str) (l : list str) (w : World) :
  write_all out l (snd (write out x w)) = write_all out (x :: l) w.
Proof.
  destruct out, w; simpl; now rewrite <- app_assoc.
Qed.

Lemma sink_write_all (out : OutFile) (l : list str) (w : World) :
  sink out (write_all out l w) = sink out w ++ l.
Proof. destruct out; reflexivity. Qed.

Lemma counters_eq (a a' b b' c c' : Z) :
  a = a' -> b = b' -> c = c' -> mkCounters a b c = mkCounters a' b' c'.
Proof. now intros -> -> ->. Qed.

Lemma loop_result (c c' : Counters) (w w' : World) :
  c = c' -> w = w' -> (Ret c, w) = (Ret c', w').
Proof. now intros -> ->. Qed.

(** The loop in closed form: the counters count the lines, the candidates
    and the kept candidates, and the kept candidates are written in order,
    each followed by a line terminator. *)
Lemma for_each_line_step (out : OutFile) (rxs : list Pattern) (act : bool)
    (words : gset str) (inv ic : bool) (lines : InFile) :
  forall (c : Counters) (w : World),
    for_each (line_step out rxs act words inv ic) lines c w
    = (Ret (mkCounters
              (count_matched c
               + Z.of_nat (length (selected rxs act words inv ic lines)))
              (count_total_processed_lines c + Z.of_nat (length lines))
              (count_valid_passwords c
               + Z.of_nat (length (candidates lines)))),
       write_all out (map terminated (selected rxs act words inv ic lines)) w).
Proof.
  induction lines as [|raw lines IH]; intros c w.
  - simpl. unfold ret. rewrite write_all_nil, !Z.add_0_r.
    now destruct c.
  - cbn [for_each]. unfold bind at 1, line_step at 1.
    unfold selected, candidates in *. cbn [map List.filter].
    destruct (strip raw) as [|ch p] eqn:Es; cbn [truthy negb].
    + unfold ret at 1. rewrite IH. apply loop_result; [|reflexivity].
      apply counters_eq; cbn [count_matched count_total_processed_lines
        count_valid_passwords length]; lia.
    + cbn [List.filter].
      replace (keeps rxs act words inv ic (ch :: p))
        with (xorb (all_criteria_met rxs act words ic (ch :: p)) inv)
        by reflexivity.
      destruct (all_criteria_met rxs act words ic (ch :: p)) eqn:Em;
        destruct inv; cbn [negb xorb].
      2, 3: unfold bind at 1, write at 1, ret at 1; rewrite IH;
        apply loop_result;
        [ apply counters_eq; cbn [count_matched count_total_processed_lines
            count_valid_passwords length]; lia
        | cbn [map]; rewrite <- write_all_cons; reflexivity ].
      all: unfold ret at 1; rewrite IH; apply loop_result; [|reflexivity];
        apply counters_eq; cbn [count_matched count_total_processed_lines
          count_valid_passwords length]; lia.
Qed.

Lemma process_lines_eq (lines : InFile) (out : OutFile) (rxs : list Pattern)
    (act : bool) (words : gset str) (inv ic : bool) (w : World) :
  process_lines lines out rxs act words inv ic w
  = (Ret (mkCounters
            (Z.of_nat (length (selected rxs act words inv ic lines)))
            (Z.of_nat (length lines))
            (Z.of_nat (length (candidates lines)))),
     write_all out (map terminated (selected rxs act words inv ic lines)) w).
Proof. unfold process_lines. now rewrite for_each_line_step. Qed.

Lemma emitted_process_lines (lines : InFile) (out : OutFile)
    (rxs : list Pattern) (act : bool) (words : gset str) (inv ic : bool) :
  emitted_lines out
    (snd (process_lines lines out rxs act words inv ic world0))
  = selected rxs act words inv ic lines.
Proof.
  rewrite process_lines_eq. cbn [snd]. unfold emitted_lines.
  rewrite sink_write_all.
  replace (sink out world0) with (@nil str) by now destruct out.
  cbn [app]. rewrite map_map.
  erewrite map_ext; [apply map_id|]. intros p. apply chomp_terminated.
Qed.

Lemma selected_In (rxs : list Pattern) (act : bool) (words : gset str)
    (inv ic : bool) (lines : InFile) (p : str) :
  In p (selected rxs act words inv ic lines)
  <-> In p (candidates lines) /\ keeps rxs act words inv ic p = true.
Proof. unfold selected. apply filter_In. Qed.

Lemma candidates_In (lines : InFile) (p : str) :
  In p (candidates lines) -> p <> [] /\ strip (terminated p) = p.
Proof.
  unfold candidates. rewrite filter_In, in_map_iff.
  intros [[raw [<- _]] Ht]. split.
  - intros E. rewrite E in Ht. discriminate.
  - apply strip_terminated. intros E. rewrite E in Ht. discriminate.
Qed.

(** Reading back what was written gives the same candidates. *)
Lemma candidates_terminated (l : list str) :
  (forall p, In p l -> p <> [] /\ strip (terminated p) = p) ->
  candidates (map terminated l) = l.
Proof.
  unfold candidates. induction l as [|p l IH]; intros H; [reflexivity|].
  cbn [map List.filter].
  destruct (H p (or_introl eq_refl)) as [Hne ->].
  destruct p; [congruence|]. cbn [truthy]. f_equal.
  apply IH. intros q Hq. apply H. now right.
Qed.

Lemma filter_all {A} (f : A -> bool) (l : list A) :
  (forall x, In x l -> f x = true) -> List.filter f l = l.
Proof.
  induction l as [|x l IH]; intros H; [reflexivity|]. simpl.
  rewrite (H x (or_introl eq_refl)). f_equal. apply IH.
  intros y Hy. apply H. now right.
Qed.

Lemma filter_none {A} (f : A -> bool) (l : list A) :
  (forall x, In x l -> f x = false) -> List.filter f l = [].
Proof.
  induction l as [|x l IH]; intros H; [reflexivity|]. simpl.
  rewrite (H x (or_introl eq_refl)). apply IH.
  intros y Hy. apply H. now right.
Qed.

Lemma sink_process_lines (lines : InFile) (out : OutFile)
    (rxs : list Pattern) (act : bool) (words : gset str) (inv ic : bool) :
  sink out (snd (process_lines lines out rxs act words inv ic world0))
  = map terminated (selected rxs act words inv ic lines).
Proof.
  rewrite process_lines_eq. cbn [snd]. rewrite sink_write_all.
  now destruct out.
Qed.

(** C2: the line evaluator returns true exactly when (a) the candidate,
    lower-cased in case-insensitive mode and unchanged otherwise, is in the
    dictionary word set whenever the dictionary filter is active, and
    (b) every compiled pattern of the filter set finds a match in the
    candidate with the engine's [search]. *)
Theorem line_evaluator_conjunction (compiled_regexes : list Pattern)
    (is_dictionary_filter_active : bool) (dictionary_words : gset str)
    (ignore_case : bool) (password : str) :
  all_criteria_met compiled_regexes is_dictionary_filter_active
    dictionary_words ignore_case password = true
  <-> (is_dictionary_filter_active = true ->
       (if ignore_case then lower password else password) ∈ dictionary_words)
      /\ (forall comp_rx, In comp_rx compiled_regexes ->
            re_search comp_rx password = true).
Proof.
  rewrite all_criteria_met_eq, andb_true_iff, regex_loop_true.
  destruct is_dictionary_filter_active.
  - rewrite bool_decide_eq_true. tauto.
  - intuition discriminate.
Qed.

(** C4: for a fixed wordlist and fixed filters, the lines emitted with
    invert on and the lines emitted with invert off are disjoint sets, and
    together they are the set of trimmed non-blank input lines. *)
Theorem invert_is_complement (wordlist_file : InFile) (output_file : OutFile)
    (compiled_regexes : list Pattern) (is_dictionary_filter_active : bool)
    (dictionary_words : gset str) (ignore_case : bool) :
  let emitted (invert_match : bool) : gset str :=
    list_to_set
      (emitted_lines output_file
         (snd (process_lines wordlist_file output_file compiled_regexes
                 is_dictionary_filter_active dictionary_words
                 invert_match ignore_case world0))) in
  emitted true ## emitted false
  /\ emitted true ∪ emitted false = list_to_set (candidates wordlist_file).
Proof.
  cbv beta zeta. rewrite !emitted_process_lines. split.
  - intros p. rewrite !elem_of_list_to_set, !list_elem_of_In, !selected_In.
    unfold keeps. intros [_ H1] [_ H2].
    destruct (all_criteria_met _ _ _ _ p); discriminate.
  - apply set_eq. intros p.
    rewrite elem_of_union, !elem_of_list_to_set, !list_elem_of_In,
      !selected_In.
    unfold keeps.
    destruct (all_criteria_met _ _ _ _ p); cbn [xorb]; intuition congruence.
Qed.

(** C6: filtering again, not inverted and with the same filters, what a
    non-inverted run wrote writes the same lines once more; doing so with
    what an inverted run wrote writes nothing. *)
Theorem refilter_output (wordlist_file : InFile) (output_file : OutFile)
    (compiled_regexes : list Pattern) (is_dictionary_filter_active : bool)
    (dictionary_words : gset str) (ignore_case : bool) :
  let written (lines : InFile) (invert_match : bool) : list str :=
    sink output_file
      (snd (process_lines lines output_file compiled_regexes
              is_dictionary_filter_active dictionary_words
              invert_match ignore_case world0)) in
  written (written wordlist_file false) false = written wordlist_file false
  /\ written (written wordlist_file true) false = [].
Proof.
  cbv beta zeta. rewrite !sink_process_lines.
  assert (Hc : forall inv,
    candidates (map terminated
      (selected compiled_regexes is_dictionary_filter_active
         dictionary_words inv ignore_case wordlist_file))
    = selected compiled_regexes is_dictionary_filter_active
        dictionary_words inv ignore_case wordlist_file).
  { intros inv. apply candidates_terminated. intros p Hp.
    apply selected_In in Hp. apply (candidates_In wordlist_file), Hp. }
  split.
  - f_equal. unfold selected at 1. rewrite Hc. apply filter_all.
    intros p Hp. apply selected_In in Hp. apply Hp.
  - unfold selected at 1. rewrite Hc, filter_none; [reflexivity|].
    intros p Hp. apply selected_In in Hp. destruct Hp as [_ Hk].
    unfold keeps in *.
    destruct (all_criteria_met _ _ _ _ p); [discriminate|reflexivity].
Qed.

(** The step of the loop on a blank line: one more line read, nothing
    else. *)
Lemma line_step_blank (out : OutFile) (rxs : list Pattern) (act : bool)
    (words : gset str) (inv ic : bool) (c : Counters) (raw : str)
    (w : World) :
  forallb isspace raw = true ->
  line_step out rxs act words inv ic c raw w
  = (Ret (mkCounters (count_matched c) (count_total_processed_lines c + 1)
            (count_valid_passwords c)), w).
Proof.
  intros H. unfold line_step. now rewrite (strip_blank raw H).
Qed.

Lemma candidates_app (l1 l2 : InFile) :
  candidates (l1 ++ l2) = candidates l1 ++ candidates l2.
Proof. unfold candidates. now rewrite map_app, List.filter_app. Qed.

Lemma candidates_blank (raw : str) (l : InFile) :
  forallb isspace raw = true -> candidates (raw :: l) = candidates l.
Proof.
  intros H. unfold candidates. cbn [map List.filter].
  now rewrite (strip_blank raw H).
Qed.

(** C8: a raw line that is empty or all whitespace, wherever it stands in
    the wordlist and whatever the filters and flags, changes nothing but
    the count of lines read: the streams and the counts of valid and of
    emitted lines are those of the wordlist without it, the count of lines
    read is one more, and the line is not among what was written. *)
Theorem blank_line_excluded (before after : InFile) (raw_line : str)
    (output_file : OutFile) (compiled_regexes : list Pattern)
    (is_dictionary_filter_active : bool) (dictionary_words : gset str)
    (invert_match ignore_case : bool) (w : World) :
  forallb isspace raw_line = true ->
  let run (lines : InFile) :=
    process_lines lines output_file compiled_regexes
      is_dictionary_filter_active dictionary_words invert_match ignore_case in
  exists c1 c0 w',
    run (before ++ raw_line :: after) w = (Ret c1, w')
    /\ run (before ++ after) w = (Ret c0, w')
    /\ count_valid_passwords c1 = count_valid_passwords c0
    /\ count_matched c1 = count_matched c0
    /\ count_total_processed_lines c1 = count_total_processed_lines c0 + 1
    /\ ~ In (terminated (strip raw_line))
           (sink output_file
              (snd (run (before ++ raw_line :: after) world0))).
Proof.
  intros Hb. cbv beta zeta. rewrite sink_process_lines, !process_lines_eq.
  assert (Hc : candidates (before ++ raw_line :: after)
               = candidates (before ++ after)).
  { now rewrite !candidates_app, (candidates_blank _ _ Hb). }
  unfold selected. rewrite Hc.
  eexists _, _, _. split; [reflexivity|]. split; [reflexivity|].
  cbn [count_valid_passwords count_matched count_total_processed_lines].
  rewrite !length_app. cbn [length].
  repeat split; try lia.
  rewrite in_map_iff. intros [p [Hp Hin]].
  apply filter_In in Hin. destruct Hin as [Hin _].
  apply candidates_In in Hin. destruct Hin as [Hne _].
  apply app_inv_tail in Hp. rewrite (strip_blank _ Hb) in Hp. congruence.
Qed.

(** C10: called with no pattern list, or an empty one, and no dictionary,
    [filter_passwords] returns normally.  Not inverted, it writes every
    trimmed non-blank line, in order, and reports them all as matched;
    inverted, it writes nothing and reports none. *)
Theorem no_criteria_direct_call (wordlist_file : InFile)
    (output_file : OutFile) (ignore_case : bool) :
  let total := Z.of_nat (length wordlist_file) in
  let valid := Z.of_nat (length (candidates wordlist_file)) in
  let run regex_patterns invert_match :=
    filter_passwords wordlist_file output_file regex_patterns None
      invert_match ignore_case world0 in
  let all_kept :=
    (Ret tt,
     snd (eprint (summary output_file (mkCounters valid total valid))
            (write_all output_file
               (map terminated (candidates wordlist_file)) world0))) in
  let none_kept :=
    (Ret tt,
     snd (eprint (summary output_file (mkCounters 0 total valid)) world0)) in
  run None false = all_kept /\ run (Some []) false = all_kept
  /\ run None true = none_kept /\ run (Some []) true = none_kept.
Proof.
  cbv beta zeta. unfold filter_passwords, compile_patterns.
  cbn [nonempty load_dictionary]. unfold bind, ret.
  rewrite !process_lines_eq. unfold selected.
  rewrite (filter_all (keeps [] false ∅ false ignore_case)) by reflexivity.
  rewrite (filter_none (keeps [] false ∅ true ignore_case)) by reflexivity.
  cbn [map length]. rewrite write_all_nil.
  unfold eprint. cbn [snd]. repeat split.
Qed.

End CoreFacts.

(** ** The catalog *)

Module PresetFacts.
Import Presets.

Lemma dict_get_In {V} (d : list (str * V)) (k : str) (v : V) :
  dict_get d k = Some v -> In (k, v) d.
Proof.
  induction d as [|[k' v'] d IH]; simpl; [discriminate|].
  case_bool_decide as E.
  - intros [= ->]. left. now rewrite E.
  - intros H. right. auto.
Qed.

Lemma dict_get_None {V} (d : list (str * V)) (k : str) :
  dict_get d k = None -> forall v, ~ In (k, v) d.
Proof.
  induction d as [|[k' v'] d IH]; simpl; [intros _ v []|].
  case_bool_decide as E; [discriminate|].
  intros H v [[= -> _]|Hin]; [congruence|]. exact (IH H v Hin).
Qed.

Lemma dict_in_true {V} (d : list (str * V)) (k : str) (v : V) :
  In (k, v) d -> dict_in k d = true.
Proof.
  intros Hin. unfold dict_in. destruct (dict_get d k) eqn:E; [reflexivity|].
  destruct (dict_get_None d k E v Hin).
Qed.

(** With pairwise distinct ids, the index maps an id to the name it was
    declared under and nothing else. *)
Lemma id_index_lookup (l : list (str * Preset)) (k name : str) :
  NoDup (map (fun e => id (snd e)) l) ->
  id_index l !! k = Some name
  <-> exists d, In (name, d) l /\ id d = k.
Proof.
  unfold id_index. induction l as [|[n d] l IH] using rev_ind; intros Hnd.
  - simpl. rewrite lookup_empty. split; [discriminate|]. now intros [? [[] _]].
  - rewrite fold_left_app. cbn [fold_left].
    rewrite map_app in Hnd. cbn [map snd] in Hnd.
    apply NoDup_app in Hnd. destruct Hnd as (Hl & Hfresh & _).
    destruct (decide (id d = k)) as [<-|Hne].
    + rewrite lookup_insert_eq. split.
      * intros [= ->]. exists d. split; [|reflexivity].
        apply in_or_app. right. now left.
      * intros [d' [Hin Hid]]. apply in_app_or in Hin.
        destruct Hin as [Hin|[[= -> ->]|[]]]; [|reflexivity].
        exfalso. apply (Hfresh (id d)).
        -- apply list_elem_of_In, in_map_iff. exists (name, d').
           split; [exact Hid|exact Hin].
        -- apply list_elem_of_In. now left.
    + rewrite lookup_insert_ne by exact Hne. rewrite (IH Hl). split.
      * intros [d' [Hin Hid]]. exists d'. split; [|exact Hid].
        apply in_or_app. now left.
      * intros [d' [Hin Hid]]. apply in_app_or in Hin.
        destruct Hin as [Hin|[[= -> ->]|[]]]; [|congruence].
        exists d'. now split.
Qed.

(** The catalog's invariant: ids are pairwise distinct, and no id is also
    a canonical name. *)
Lemma ids_distinct : NoDup (map (fun e => id (snd e)) PRESETS).
Proof. apply (bool_decide_unpack _). vm_compute. exact I. Qed.

Lemma ids_not_names :
  Forall (fun e => dict_in (id (snd e)) PRESETS = false) PRESETS.
Proof. apply (bool_decide_unpack _). vm_compute. exact I. Qed.

Lemma get_preset_Some (identifier name : str) :
  get_preset_by_name_or_id identifier = Some name
  <-> exists d, In (name, d) PRESETS
                /\ (identifier = name \/ identifier = id d).
Proof.
  unfold get_preset_by_name_or_id, PRESET_ID_TO_NAME_MAP.
  destruct (dict_in identifier PRESETS) eqn:Ein.
  - split.
    + intros [= <-]. unfold dict_in in Ein.
      destruct (dict_get PRESETS identifier) as [d0|] eqn:Eg;
        [|discriminate].
      exists d0. split; [now apply dict_get_In|now left].
    + intros [d [Hin [-> | ->]]]; [reflexivity|].
      pose proof ids_not_names as Hf. rewrite List.Forall_forall in Hf.
      specialize (Hf _ Hin). cbn [snd] in Hf. congruence.
  - transitivity (id_index PRESETS !! identifier = Some name).
    { destruct (id_index PRESETS !! identifier); reflexivity. }
    rewrite (id_index_lookup _ _ _ ids_distinct). split.
    + intros [d [Hin Hid]]. exists d. auto.
    + intros [d [Hin [-> | ->]]].
      * now rewrite (dict_in_true _ _ _ Hin) in Ein.
      * exists d. auto.
Qed.

(** Every rule but the dictionary rule carries a pattern. *)
Lemma rules_have_patterns :
  Forall (fun e => is_dictionary_rule (fst e)
                   || nonempty (patterns_of (fst e)) = true) PRESETS.
Proof. apply (bool_decide_unpack _). vm_compute. exact I. Qed.

(** A resolved name is a key of the catalog, and contributes a pattern
    unless it is the dictionary rule. *)
Lemma resolved_name (x n : str) :
  resolved x = Some n ->
  dict_get PRESETS n <> None
  /\ (is_dictionary_rule n = false -> patterns_of n <> []).
Proof.
  unfold resolved. destruct (get_preset_by_name_or_id x) as [m|] eqn:E;
    [|discriminate].
  destruct (truthy m); [|discriminate]. intros [= ->].
  apply get_preset_Some in E. destruct E as [d [Hin _]]. split.
  - pose proof (dict_in_true _ _ _ Hin) as Hd. unfold dict_in in Hd.
    destruct (dict_get PRESETS n); [discriminate|discriminate].
  - pose proof rules_have_patterns as Hf. rewrite List.Forall_forall in Hf.
    specialize (Hf _ Hin). cbn [fst] in Hf. intros Hnd Hp.
    rewrite Hnd, Hp in Hf. discriminate.
Qed.

(** C9: resolving an identifier yields a canonical name exactly when the
    identifier is the canonical name or the short id of a catalog rule, and
    then it is that rule's name; an identifier that is neither resolves to
    nothing. *)
Theorem resolve_by_name_or_id (identifier : str) :
  (forall name,
     get_preset_by_name_or_id identifier = Some name
     <-> exists d, In (name, d) PRESETS
                   /\ (identifier = name \/ identifier = id d))
  /\ (get_preset_by_name_or_id identifier = None
      <-> forall name d, In (name, d) PRESETS ->
                         identifier <> name /\ identifier <> id d).
Proof.
  pose proof (get_preset_Some identifier) as Hsome.
  split; [exact Hsome|].
  split.
  - intros Hnone name d Hin. split; intros ->.
    + assert (H : get_preset_by_name_or_id name = Some name)
        by (apply Hsome; exists d; auto). congruence.
    + assert (H : get_preset_by_name_or_id (id d) = Some name)
        by (apply Hsome; exists d; auto). congruence.
  - intros H. destruct (get_preset_by_name_or_id identifier) as [name|] eqn:E;
      [|reflexivity].
    destruct (proj1 (Hsome name) eq_refl) as [d [Hin Hor]].
    destruct (H name d Hin). tauto.
Qed.

End PresetFacts.

(** ** The command line *)

Section CliFacts.
Context {rt : Runtime}.
Import Presets Cli.

Lemma quiet_refl (w : World) : quiet w w.
Proof. now split. Qed.

Lemma quiet_trans (w1 w2 w3 : World) :
  quiet w1 w2 -> quiet w2 w3 -> quiet w1 w3.
Proof. intros [? ?] [? ?]. split; congruence. Qed.

Lemma quiet_sink (out : OutFile) (w w' : World) :
  quiet w w' -> sink out w' = sink out w.
Proof. intros [? ?]. now destruct out. Qed.

Lemma quiet_eprint (s : str) (w : World) : quiet w (snd (eprint s w)).
Proof. now split. Qed.

Lemma quiet_parser_error {A} (m : str) (w : World) :
  quiet w (snd (@parser_error rt A m w)).
Proof. now split. Qed.

Lemma bind_ret_eq {A B} (m : Proc A) (k : A -> Proc B) (a : A)
    (w w' : World) :
  m w = (Ret a, w') -> bind m k w = k a w'.
Proof. unfold bind. now intros ->. Qed.

Lemma bind_exit_eq {A B} (m : Proc A) (k : A -> Proc B) (c : Z)
    (w w' : World) :
  m w = (Exit c, w') -> bind m k w = (Exit c, w').
Proof. unfold bind. now intros ->. Qed.

(** The compilation loop: all patterns compiled, or exit status 1 at the
    first one refused; nothing but diagnostics is written. *)
Lemma compile_loop (ic : bool) (ps : list str) :
  forall (acc : list Pattern) (w : World),
    exists w', quiet w w'
      /\ for_each (compile_step ic) ps acc w
         = (match compile_list ps ic with
            | Some rxs => Ret (acc ++ rxs)
            | None => Exit 1
            end, w').
Proof.
  induction ps as [|p ps IH]; intros acc w.
  - exists w. split; [apply quiet_refl|]. simpl. now rewrite app_nil_r.
  - cbn [for_each compile_list]. unfold compile_step at 1.
    destruct (re_compile p ic) as [rx|e].
    + destruct (IH (acc ++ [rx]) w) as [w' [Hq Hw]]. exists w'.
      split; [exact Hq|].
      rewrite (bind_ret_eq _ _ (acc ++ [rx]) w w eq_refl), Hw.
      destruct (compile_list ps ic); [|reflexivity].
      now rewrite <- app_assoc.
    + eexists. split; [|reflexivity]. split; reflexivity.
Qed.

Lemma compile_patterns_eq (ic : bool) (ps : list str) (w : World) :
  exists w', quiet w w'
    /\ compile_patterns (Some ps) ic w
       = (match compile_list ps ic with
          | Some rxs => Ret rxs
          | None => Exit 1
          end, w').
Proof.
  unfold compile_patterns. destruct ps as [|p ps].
  - exists w. split; [apply quiet_refl|reflexivity].
  - cbn [nonempty]. apply (compile_loop ic (p :: ps) [] w).
Qed.

(** What [filter_passwords] adds to its output file. *)
Lemma filter_passwords_sink (wl : InFile) (out : OutFile) (ps : list str)
    (adf : option InFile) (inv ic : bool) (w : World) :
  sink out (snd (filter_passwords wl out (Some ps) adf inv ic w))
  = sink out w
    ++ match compile_list ps ic with
       | Some rxs =>
           map terminated
             (selected rxs (is_some adf) (load_dictionary adf ic) inv ic wl)
       | None => []
       end.
Proof.
  unfold filter_passwords.
  destruct (compile_patterns_eq ic ps w) as [w' [Hq Hc]].
  destruct (compile_list ps ic) as [rxs|].
  - rewrite (bind_ret_eq _ _ _ _ _ Hc).
    unfold bind. rewrite process_lines_eq. cbn [snd eprint].
    replace (match adf with Some _ => true | None => false end)
      with (is_some adf) by reflexivity.
    set (l := map terminated _).
    rewrite <- (quiet_sink out w w' Hq).
    destruct out; reflexivity.
  - rewrite (bind_exit_eq _ _ _ _ _ Hc). cbn [snd].
    now rewrite (quiet_sink out w w' Hq), app_nil_r.
Qed.

(** One step of the resolution loop. *)
Lemma resolve_step_eq (chosen : list str) (uses : bool) (x : str)
    (w : World) :
  exists w', quiet w w'
    /\ resolve_step (chosen, uses) x w
       = (match resolved x with
          | Some n =>
              Ret (if bool_decide (n ∉ chosen) then chosen ++ [n]
                   else chosen,
                   if is_dictionary_rule n then true else uses)
          | None => Exit 2
          end, w').
Proof.
  unfold resolve_step, resolved, is_dictionary_rule.
  destruct (get_preset_by_name_or_id x) as [n|].
  - destruct (truthy n); cbn [negb].
    + exists w. split; [apply quiet_refl|reflexivity].
    + eexists. split; [|reflexivity]. split; reflexivity.
  - eexists. split; [|reflexivity]. split; reflexivity.
Qed.

(** The pattern loop over names that are keys of the catalog. *)
Lemma pattern_loop (names : list str) :
  (forall n, In n names -> dict_get PRESETS n <> None) ->
  forall (acc : list str) (w : World),
    for_each pattern_step names acc w
    = (Ret (acc ++ flat_map patterns_of names), w).
Proof.
  induction names as [|n names IH]; intros Hk acc w.
  - simpl. now rewrite app_nil_r.
  - cbn [for_each flat_map]. unfold pattern_step at 1, patterns_of at 1.
    pose proof (Hk n (or_introl eq_refl)) as Hn.
    assert (Hk' : forall m, In m names -> dict_get PRESETS m <> None)
      by (intros m Hm; apply Hk; now right).
    destruct (dict_get PRESETS n) as [d|]; [|congruence].
    destruct (regex d) as [r|].
    + destruct (truthy r).
      * rewrite (bind_ret_eq _ _ (acc ++ [r]) w w eq_refl), (IH Hk').
        now rewrite <- app_assoc.
      * rewrite (bind_ret_eq _ _ acc w w eq_refl), (IH Hk'). reflexivity.
    + rewrite (bind_ret_eq _ _ acc w w eq_refl), (IH Hk'). reflexivity.
Qed.

(** Preset mode once the identifiers are resolved. *)
Lemma preset_mode_eq (args : Namespace) (ps : list str) (w w1 : World)
    (chosen : list str) (uses : bool) :
  for_each resolve_step ps ([], false) w = (Ret (chosen, uses), w1) ->
  (forall n, In n chosen -> dict_get PRESETS n <> None) ->
  exists w', quiet w1 w'
    /\ preset_mode args ps w
       = (if uses && negb (is_some (dictionary_file args)) then Exit 2
          else Ret (flat_map patterns_of chosen,
                    if uses then dictionary_file args else None), w').
Proof.
  intros Hres Hk. unfold preset_mode.
  rewrite (bind_ret_eq _ _ _ _ _ Hres).
  destruct (uses && negb (is_some (dictionary_file args))) eqn:Eu.
  - eexists. split; [|reflexivity]. split; reflexivity.
  - rewrite (bind_ret_eq _ _ tt w1 w1 eq_refl).
    destruct uses.
    + rewrite (bind_ret_eq _ _ (dictionary_file args) w1 w1 eq_refl).
      rewrite (bind_ret_eq _ _ _ _ _ (pattern_loop chosen Hk [] w1)).
      cbn [app]. rewrite andb_false_r.
      exists w1. split; [apply quiet_refl|reflexivity].
    + destruct (is_some (dictionary_file args)).
      * unfold bind at 1. unfold bind at 1. cbn [eprint ret].
        rewrite (bind_ret_eq _ _ _ _ _ (pattern_loop chosen Hk [] _)).
        cbn [app negb andb].
        destruct (nonempty (flat_map patterns_of chosen)); cbn [negb];
          (eexists; split; [|reflexivity]; split; reflexivity).
      * rewrite (bind_ret_eq _ _ (@None InFile) w1 w1 eq_refl).
        rewrite (bind_ret_eq _ _ _ _ _ (pattern_loop chosen Hk [] w1)).
        cbn [app negb andb].
        destruct (nonempty (flat_map patterns_of chosen)); cbn [negb];
          (eexists; split; [|reflexivity]; split; reflexivity).
Qed.

(** What a run in preset mode adds to its output file, once the
    identifiers are resolved. *)
Lemma main_preset_sink (args : Namespace) (p : str) (ps : list str)
    (w w1 : World) (chosen : list str) (uses : bool) :
  list_presets args = false ->
  presets args = Some (p :: ps) ->
  for_each resolve_step (p :: ps) ([], false) w = (Ret (chosen, uses), w1) ->
  quiet w w1 ->
  (forall n, In n chosen -> dict_get PRESETS n <> None) ->
  sink (output args) (snd (main args w))
  = sink (output args) w
    ++ match criteria chosen uses (dictionary_file args) (ignore_case args)
       with
       | Some f =>
           map terminated
             (List.filter (fun c => xorb (f c) (invert_match args))
                (candidates (wordlist args)))
       | None => []
       end.
Proof.
  intros Hl Hp Hres Hq Hk. unfold main, select. rewrite Hl, Hp.
  destruct (preset_mode_eq args (p :: ps) w w1 chosen uses Hres Hk)
    as [w2 [Hq2 Hm]].
  pose proof (quiet_sink (output args) _ _ (quiet_trans _ _ _ Hq Hq2)) as Hs.
  unfold criteria.
  destruct (uses && negb (is_some (dictionary_file args))).
  - rewrite (bind_exit_eq _ _ _ _ _ Hm). cbn [snd].
    now rewrite Hs, app_nil_r.
  - rewrite (bind_ret_eq _ _ _ _ _ Hm). cbv beta iota zeta.
    destruct (negb (nonempty (flat_map patterns_of chosen))
              && negb (is_some (if uses then dictionary_file args else None))).
    + cbn [snd parser_error sink]. rewrite app_nil_r. rewrite <- Hs.
      now destruct (output args).
    + rewrite filter_passwords_sink, Hs.
      destruct (compile_list _ _); reflexivity.
Qed.

(** A run whose identifiers do not all resolve writes nothing. *)
Lemma main_unresolved_sink (args : Namespace) (p : str) (ps : list str)
    (w w1 : World) (c : Z) :
  list_presets args = false ->
  presets args = Some (p :: ps) ->
  for_each resolve_step (p :: ps) ([], false) w = (Exit c, w1) ->
  quiet w w1 ->
  sink (output args) (snd (main args w)) = sink (output args) w.
Proof.
  intros Hl Hp Hres Hq. unfold main, select. rewrite Hl, Hp.
  unfold preset_mode.
  rewrite (bind_exit_eq _ _ c w w1);
    [|now rewrite (bind_exit_eq _ _ _ _ _ Hres)].
  cbn [snd]. now apply quiet_sink.
Qed.

Lemma bind_quiet {A B} (m : Proc A) (k : A -> Proc B) :
  (forall w, quiet w (snd (m w))) ->
  (forall a w, quiet w (snd (k a w))) ->
  forall w, quiet w (snd (bind m k w)).
Proof.
  intros Hm Hk w. unfold bind. specialize (Hm w).
  destruct (m w) as [[a|c] w']; cbn [snd] in *; [|exact Hm].
  eapply quiet_trans; [exact Hm|apply Hk].
Qed.

Lemma for_each_quiet {A S} (body : S -> A -> Proc S) (xs : list A) :
  (forall s x w, quiet w (snd (body s x w))) ->
  forall s w, quiet w (snd (for_each body xs s w)).
Proof.
  intros Hb. induction xs as [|x xs IH]; intros s w.
  - apply quiet_refl.
  - cbn [for_each]. apply bind_quiet; [apply Hb|]. intros; apply IH.
Qed.

Lemma resolve_loop_quiet (ps : list str) (st : list str * bool) (w : World) :
  quiet w (snd (for_each resolve_step ps st w)).
Proof.
  apply for_each_quiet. intros [chosen uses] x w0.
  destruct (resolve_step_eq chosen uses x w0) as [w' [Hq ->]]. exact Hq.
Qed.

(** Selecting the criteria writes to the diagnostic stream only. *)
Lemma select_quiet (args : Namespace) (w : World) :
  quiet w (snd (select args w)).
Proof.
  unfold select.
  assert (Hr : forall r w0, quiet w0 (snd (regex_mode args r w0))).
  { intros r w0. unfold regex_mode.
    destruct (is_some (dictionary_file args)); split; reflexivity. }
  destruct (presets args) as [[|p ps]|].
  2: { unfold preset_mode. revert w. apply bind_quiet.
       - intros w0. apply resolve_loop_quiet.
       - intros [chosen uses] w0. revert w0. apply bind_quiet.
         { intros w0. destruct (_ && _); split; reflexivity. }
         intros _. apply bind_quiet.
         { intros w0. destruct uses; [apply quiet_refl|].
           destruct (is_some _); split; reflexivity. }
         intros adf. apply bind_quiet.
         { intros w0. apply for_each_quiet. intros acc n w2.
           unfold pattern_step. destruct (dict_get PRESETS n) as [d|];
             [|apply quiet_refl].
           destruct (regex d) as [r|]; [destruct (truthy r)|];
             apply quiet_refl. }
         intros pats. apply bind_quiet.
         { intros w0. destruct (_ && _); split; reflexivity. }
         intros _ w0. apply quiet_refl. }
  all: destruct (regex_arg args) as [[|ch r]|];
    first [apply quiet_refl | apply Hr].
Qed.

Lemma compile_list_app (p1 p2 : list str) (ic : bool) :
  compile_list (p1 ++ p2) ic
  = match compile_list p1 ic, compile_list p2 ic with
    | Some r1, Some r2 => Some (r1 ++ r2)
    | _, _ => None
    end.
Proof.
  induction p1 as [|p p1 IH]; cbn [app compile_list].
  - now destruct (compile_list p2 ic).
  - destruct (re_compile p ic); [|reflexivity]. rewrite IH.
    destruct (compile_list p1 ic), (compile_list p2 ic); reflexivity.
Qed.

(** The lines a run in preset mode writes, by the criteria of its
    selection. *)
Lemma main_preset_emitted (wl : InFile) (out : OutFile)
    (df : option InFile) (ic : bool) (rx : option str) (p : str)
    (ps : list str) :
  emitted_lines out
    (snd (main (mkNamespace wl (Some (p :: ps)) rx out false ic df false)
            world0))
  = match for_each resolve_step (p :: ps) ([], false) world0 with
    | (Ret (chosen, uses), _) =>
        match criteria chosen uses df ic with
        | Some f => List.filter f (candidates wl)
        | None => []
        end
    | (Exit _, _) => []
    end.
Proof.
  set (args := mkNamespace wl (Some (p :: ps)) rx out false ic df false).
  pose proof (resolve_loop_quiet (p :: ps) ([], false) world0) as Hq.
  assert (Hchosen : forall chosen uses w1,
    for_each resolve_step (p :: ps) ([], false) world0
      = (Ret (chosen, uses), w1) ->
    forall n, In n chosen -> dict_get PRESETS n <> None).
  { assert (Hgen : forall l st chosen uses w w1,
      for_each resolve_step l st w = (Ret (chosen, uses), w1) ->
      (forall n, In n (fst st) -> dict_get PRESETS n <> None) ->
      forall n, In n chosen -> dict_get PRESETS n <> None).
    { induction l as [|x l IH]; intros [ch0 u0] chosen uses w w1 H Hst.
      - injection H as <- _ _. exact Hst.
      - cbn [for_each] in H.
        destruct (resolve_step_eq ch0 u0 x w) as [w' [_ Hs]].
        destruct (resolved x) as [n0|] eqn:Er.
        + rewrite (bind_ret_eq _ _ _ _ _ Hs) in H.
          apply (IH _ _ _ _ _ H). cbn [fst].
          intros n Hn. case_bool_decide; [|now apply Hst].
          apply in_app_or in Hn. destruct Hn as [Hn|[<-|[]]];
            [now apply Hst|]. apply (PresetFacts.resolved_name x n0 Er).
        + rewrite (bind_exit_eq _ _ _ _ _ Hs) in H. discriminate. }
    intros chosen uses w1 H. apply (Hgen _ _ _ _ _ _ H). intros n []. }
  unfold emitted_lines.
  destruct (for_each resolve_step (p :: ps) ([], false) world0)
    as [[[chosen uses]|c] w1] eqn:Hres; cbn [snd] in Hq.
  - change out with (output args).
    rewrite (main_preset_sink args p ps world0 w1 chosen uses eq_refl
               eq_refl Hres Hq (Hchosen _ _ _ eq_refl)).
    cbn [dictionary_file ignore_case invert_match wordlist output args].
    replace (sink out world0) with (@nil str) by now destruct out.
    cbn [app]. destruct (criteria chosen uses df ic) as [f|]; [|reflexivity].
    rewrite map_map.
    erewrite map_ext; [rewrite map_id|intros c; apply chomp_terminated].
    apply filter_ext. intros c. now destruct (f c).
  - change out with (output args).
    rewrite (main_unresolved_sink args p ps world0 w1 c eq_refl eq_refl
               Hres Hq).
    now destruct out.
Qed.

(** The criteria of two names together against the criteria of each. *)
Lemma criteria_pair (nA nB : str) (df : option InFile) (ic : bool) :
  (is_dictionary_rule nA = false -> patterns_of nA <> []) ->
  (is_dictionary_rule nB = false -> patterns_of nB <> []) ->
  match criteria (if bool_decide (nB ∉ [nA]) then [nA; nB] else [nA])
          (if is_dictionary_rule nB then true else is_dictionary_rule nA)
          df ic
  with
  | Some f =>
      exists fA fB,
        criteria [nA] (is_dictionary_rule nA) df ic = Some fA
        /\ criteria [nB] (is_dictionary_rule nB) df ic = Some fB
        /\ forall c, f c = fA c && fB c
  | None =>
      criteria [nA] (is_dictionary_rule nA) df ic = None
      \/ criteria [nB] (is_dictionary_rule nB) df ic = None
  end.
Proof.
  intros HA HB. case_bool_decide as Hne.
  - unfold criteria. cbn [flat_map]. rewrite !app_nil_r.
    rewrite compile_list_app.
    destruct (compile_list (patterns_of nA) ic) as [rA|];
      destruct (compile_list (patterns_of nB) ic) as [rB|];
      destruct (patterns_of nA) as [|a pA];
      destruct (patterns_of nB) as [|b pB];
      destruct (is_dictionary_rule nA);
      destruct (is_dictionary_rule nB);
      try solve [exfalso; apply HA; reflexivity
                |exfalso; apply HB; reflexivity];
      destruct df as [lines|]; cbn [is_some negb andb app nonempty];
      auto;
      (eexists _, _; split; [reflexivity|]; split; [reflexivity|]);
      intros c; rewrite !all_criteria_met_eq, ?regex_loop_app;
      cbn [is_some regex_loop];
      repeat match goal with
             | |- context [bool_decide ?P] => destruct (bool_decide P)
             | |- context [regex_loop ?r c] => destruct (regex_loop r c)
             end; reflexivity.
  - assert (nB = nA) as ->.
    { apply list_elem_of_In in Hne. destruct Hne as [E|[]]. now symmetry. }
    replace (if is_dictionary_rule nA then true else is_dictionary_rule nA)
      with (is_dictionary_rule nA) by now destruct (is_dictionary_rule nA).
    destruct (criteria [nA] (is_dictionary_rule nA) df ic) as [f|];
      [|now left].
    exists f, f. repeat split. intros c. now destruct (f c).
Qed.

(** C5: for two preset identifiers, the set of lines a run with both
    writes is the intersection of the sets of lines the runs with each one
    alone write, for the same wordlist, dictionary and case flag, not
    inverted; an identifier may be a name or a short id, and may stand for
    the dictionary rule. *)
Theorem combined_presets_intersect (wl : InFile) (out : OutFile)
    (df : option InFile) (ic : bool) (rx : option str) (A B : str) :
  let emitted (ps : list str) : gset str :=
    list_to_set
      (emitted_lines out
         (snd (main (mkNamespace wl (Some ps) rx out false ic df false)
                 world0))) in
  emitted [A; B] = emitted [A] ∩ emitted [B].
Proof.
  cbv beta zeta. rewrite !main_preset_emitted. cbn [for_each].
  assert (Hone : forall x,
    bind (resolve_step ([], false) x) (fun s' => ret s') world0
    = (match resolved x with
       | Some n => Ret ([n], is_dictionary_rule n)
       | None => Exit 2
       end,
       snd (bind (resolve_step ([], false) x) (fun s' => ret s') world0))).
  { intros x. destruct (resolve_step_eq [] false x world0) as [w' [_ Hs]].
    destruct (resolved x) as [n|].
    - rewrite (bind_ret_eq _ _ _ _ _ Hs). unfold ret. cbn [snd app].
      destruct (is_dictionary_rule n); reflexivity.
    - rewrite (bind_exit_eq _ _ _ _ _ Hs). reflexivity. }
  rewrite (Hone A), (Hone B).
  destruct (resolve_step_eq [] false A world0) as [wA [_ HsA]].
  destruct (resolved A) as [nA|] eqn:EA.
  2: { rewrite (bind_exit_eq _ _ _ _ _ HsA). cbn [list_to_set].
       now rewrite intersection_empty_l_L. }
  rewrite (bind_ret_eq _ _ _ _ _ HsA).
  cbn [app].
  destruct (resolve_step_eq [nA] (if is_dictionary_rule nA then true else false)
              B wA) as [wB [_ HsB]].
  destruct (resolved B) as [nB|] eqn:EB.
  2: { rewrite (bind_exit_eq _ _ _ _ _ HsB). cbn [list_to_set].
       now rewrite intersection_empty_r_L. }
  rewrite (bind_ret_eq _ _ _ _ _ HsB). unfold ret.
  replace (if is_dictionary_rule nA then true else false)
    with (is_dictionary_rule nA) by now destruct (is_dictionary_rule nA).
  pose proof (criteria_pair nA nB df ic
                (proj2 (PresetFacts.resolved_name A nA EA))
                (proj2 (PresetFacts.resolved_name B nB EB))) as Hp.
  cbn [app] in Hp.
  destruct (criteria _ _ df ic) as [f|] in Hp |- *.
  - destruct Hp as [fA [fB [-> [-> Hf]]]].
    apply set_eq. intros c.
    rewrite elem_of_intersection, !elem_of_list_to_set, !list_elem_of_In,
      !filter_In, Hf, andb_true_iff. tauto.
  - destruct Hp as [-> | ->]; cbn [list_to_set];
      now rewrite ?intersection_empty_l_L, ?intersection_empty_r_L.
Qed.

(** C3: a run whose selection comes out empty, no pattern and no
    dictionary, ends with exit status 2 and a message on the diagnostic
    stream; its standard output and output file are as they were before
    the run, so no line has been written. *)
Theorem zero_criteria_rejected (args : Namespace) (w w1 : World) :
  list_presets args = false ->
  select args w = (Ret ([], None), w1) ->
  main args w
  = (Exit 2,
     mkWorld (stdout w1)
       (stderr w1
        ++ [parser_error_text
              (lit "No filtering criteria specified. Use --presets or --regex.")])
       (outfile w1))
  /\ sink (output args) (snd (main args w)) = sink (output args) w.
Proof.
  intros Hl Hsel.
  assert (Hm : main args w
    = (Exit 2,
       mkWorld (stdout w1)
         (stderr w1
          ++ [parser_error_text
                (lit "No filtering criteria specified. Use --presets or --regex.")])
         (outfile w1))).
  { unfold main. rewrite Hl, (bind_ret_eq _ _ _ _ _ Hsel). reflexivity. }
  split; [exact Hm|]. rewrite Hm. cbn [snd].
  pose proof (select_quiet args w) as Hq. rewrite Hsel in Hq.
  now apply quiet_sink.
Qed.

End CliFacts.

(** ** The engine on the shapes of the catalog *)

Module SreFacts.
Import Sre.

Section Shapes.
Context {ct : CaseTables}.
Variable ic : bool.

Lemma nonempty_In {A} (l : list A) : nonempty l = true <-> exists x, In x l.
Proof.
  destruct l as [|x l]; simpl.
  - split; [discriminate|now intros [? []]].
  - split; [|reflexivity]. intros _. exists x. now left.
Qed.

Lemma advance_0 (st : state) : advance 0 st = st.
Proof. destruct st. unfold advance. simpl. now rewrite Nat.add_0_r. Qed.

Lemma advance_advance (j k : nat) (st : state) :
  advance k (advance j st) = advance (j + k) st.
Proof.
  unfold advance. cbn [pos rest groups]. f_equal; [lia|].
  rewrite List.skipn_skipn. f_equal. lia.
Qed.

Lemma run_any (st : state) :
  run ic AnyChar st
  = if dots 1 (rest st) then [advance 1 st] else [].
Proof.
  cbn [run]. destruct (rest st) as [|ch r]; [reflexivity|].
  cbn [dots]. now destruct (ch =? 10)%N.
Qed.

(** Repeating [.] at least [lo] times ends after any [k >= lo] characters
    that [.] accepts. *)
Lemma rep_any (fuel : nat) :
  forall (lo : nat) (st st' : state),
    (lo + length (rest st) <= fuel)%nat ->
    In st' (rep (run ic AnyChar) fuel lo None st)
    <-> exists k, (lo <= k)%nat /\ dots k (rest st) = true
                  /\ st' = advance k st.
Proof.
  induction fuel as [|fuel IH]; intros lo st st' Hf.
  - assert (lo = 0%nat) as -> by lia.
    assert (Hr : rest st = []) by (destruct (rest st); [reflexivity|simpl in Hf; lia]).
    cbn [rep Nat.eqb]. rewrite Hr. split.
    + intros [<-|[]]. exists 0%nat. now rewrite advance_0.
    + intros [k [_ [Hd ->]]]. destruct k; [|discriminate].
      left. now rewrite advance_0.
  - cbn [rep option_map]. rewrite in_app_iff, run_any.
    destruct (dots 1 (rest st)) eqn:Hd1.
    + destruct (rest st) as [|ch r] eqn:Hr; [discriminate|].
      cbn [dots] in Hd1. rewrite andb_true_r in Hd1.
      cbn [flat_map]. rewrite app_nil_r.
      replace (pos (advance 1 st) =? pos st)%nat with false
        by (symmetry; apply Nat.eqb_neq; cbn [advance pos]; lia).
      rewrite andb_false_r.
      rewrite (IH (Nat.pred lo) (advance 1 st) st').
      2: { cbn [advance rest]. rewrite Hr.
           change (skipn 1 (ch :: r)) with r. simpl in Hf. lia. }
      cbn [advance rest]. rewrite Hr. change (skipn 1 (ch :: r)) with r.
      split.
      * intros [[k [Hk [Hd ->]]]|Hst].
        -- exists (S k). split; [lia|]. split.
           ++ cbn [dots]. now rewrite Hd1, Hd.
           ++ now rewrite <- (advance_advance 1 k).
        -- destruct (lo =? 0)%nat eqn:El; [|destruct Hst].
           destruct Hst as [<-|[]]. apply Nat.eqb_eq in El. subst lo.
           exists 0%nat. now rewrite advance_0.
      * intros [k [Hk [Hd ->]]]. destruct k as [|k].
        -- right. assert (lo = 0%nat) as -> by lia.
           left. now rewrite advance_0.
        -- left. exists k. split; [lia|]. cbn [dots] in Hd.
           apply andb_prop in Hd. split; [apply Hd|].
           now rewrite <- (advance_advance 1 k).
    + cbn [flat_map app]. split.
      * intros [[]|Hst].
        destruct (lo =? 0)%nat eqn:El; [|destruct Hst].
        destruct Hst as [<-|[]]. apply Nat.eqb_eq in El. subst lo.
        exists 0%nat. now rewrite advance_0.
      * intros [k [Hk [Hd ->]]]. destruct k as [|k].
        -- assert (lo = 0%nat) as -> by lia. right. left.
           now rewrite advance_0.
        -- exfalso. destruct (rest st) as [|ch r]; [discriminate|].
           cbn [dots] in Hd, Hd1. rewrite andb_true_r in Hd1.
           rewrite Hd1 in Hd. discriminate.
Qed.

Lemma run_cat_nonempty (a b : node) (st : state) :
  nonempty (run ic (Cat a b) st) = true
  <-> exists st', In st' (run ic a st) /\ nonempty (run ic b st') = true.
Proof.
  cbn [run]. rewrite nonempty_In. split.
  - intros [x Hx]. apply in_flat_map in Hx. destruct Hx as [st' [H1 H2]].
    exists st'. split; [exact H1|]. apply nonempty_In. now exists x.
  - intros [st' [H1 H2]]. apply nonempty_In in H2. destruct H2 as [x Hx].
    exists x. apply in_flat_map. now exists st'.
Qed.

Lemma run_at_end (st : state) :
  nonempty (run ic (Cat AtEnd Empty) st) = true
  <-> rest st = [] \/ rest st = [10%N].
Proof.
  cbn [run]. destruct (rest st) as [|c [|d r]]; cbn [flat_map app nonempty].
  - intuition.
  - destruct (c =? 10)%N eqn:E; cbn [flat_map nonempty].
    + apply N.eqb_eq in E. subst c. intuition.
    + split; [discriminate|]. intros [H|[= H]]; [discriminate|].
      subst c. discriminate.
  - split; [discriminate|]. intros [H|H]; discriminate.
Qed.

(** [.{n,}$] matches at [st]: after some [k >= n] characters that [.]
    accepts the subject ends, or ends with a final newline. *)
Lemma run_at_least (n : nat) (st : state) :
  nonempty (run ic (at_least n) st) = true
  <-> exists k, (n <= k)%nat /\ dots k (rest st) = true
                /\ (skipn k (rest st) = [] \/ skipn k (rest st) = [10%N]).
Proof.
  unfold at_least. rewrite run_cat_nonempty.
  change (run ic (Repeat n None AnyChar) st)
    with (rep (run ic AnyChar) (n + length (rest st)) n None st).
  split.
  - intros [st' [Hin He]]. apply rep_any in Hin; [|lia].
    destruct Hin as [k [Hk [Hd ->]]]. apply run_at_end in He.
    exists k. auto.
  - intros [k [Hk [Hd He]]]. exists (advance k st). split.
    + apply rep_any; [lia|]. exists k. auto.
    + apply run_at_end. exact He.
Qed.

(** [.*] then a character of the set: where the match can end. *)
Lemma run_reach (items : list item) (st st' : state) :
  In st' (run ic (reach items) st)
  <-> exists k ch r, dots k (rest st) = true
                     /\ skipn k (rest st) = ch :: r
                     /\ set_match ic false items ch = true
                     /\ st' = advance (k + 1) st.
Proof.
  unfold reach. cbn [run]. rewrite in_flat_map. split.
  - intros [st1 [H1 H2]]. apply rep_any in H1; [|lia].
    destruct H1 as [k [_ [Hd ->]]].
    cbn [advance rest] in H2.
    destruct (skipn k (rest st)) as [|ch r] eqn:Es; [destruct H2|].
    destruct (set_match ic false items ch) eqn:Em; [|destruct H2].
    cbn [flat_map app] in H2. destruct H2 as [<-|[]].
    exists k, ch, r. repeat split; auto.
    now rewrite advance_advance.
  - intros [k [ch [r [Hd [Es [Em ->]]]]]]. exists (advance k st). split.
    + apply rep_any; [lia|]. exists k. repeat split; [lia|exact Hd].
    + cbn [advance rest]. rewrite Es, Em. cbn [flat_map app].
      left. now rewrite advance_advance.
Qed.

(** A lookahead for [reach] leaves the state as it is. *)
Lemma run_look (items : list item) (st : state) :
  run ic (Assert (reach items)) st
  = if nonempty (run ic (reach items) st) then [st] else [].
Proof.
  cbn [run]. fold (reach items).
  destruct (run ic (reach items) st) as [|st' l] eqn:E; [reflexivity|].
  cbn [nonempty].
  assert (Hin : In st' (run ic (reach items) st)) by (rewrite E; now left).
  apply run_reach in Hin. destruct Hin as [k [ch [r [_ [_ [_ ->]]]]]].
  cbn [advance groups]. now destruct st.
Qed.

Lemma run_cat_look (items : list item) (b : node) (st : state) :
  nonempty (run ic (Cat (Assert (reach items)) b) st)
  = nonempty (run ic (reach items) st) && nonempty (run ic b st).
Proof.
  change (run ic (Cat (Assert (reach items)) b) st)
    with (flat_map (run ic b) (run ic (Assert (reach items)) st)).
  rewrite run_look.
  destruct (nonempty (run ic (reach items) st)); [|reflexivity].
  cbn [flat_map andb]. now rewrite app_nil_r.
Qed.

(** An anchored pattern can only match from the start of the subject. *)
Lemma search_anchored (r : node) (s : str) :
  search (mkCompiled (Cat AtBeginning r) ic) s
  = nonempty (run ic r (mkState 0 s [])).
Proof.
  unfold search. cbn [ast ignorecase seq existsb].
  assert (Hrest : existsb
    (fun i => nonempty (run ic (Cat AtBeginning r) (mkState i (skipn i s) [])))
    (seq 1 (length s)) = false).
  { apply not_true_is_false. intros H. apply existsb_exists in H.
    destruct H as [i [Hi Hn]]. apply in_seq in Hi.
    cbn [run pos] in Hn. destruct i; [lia|]. discriminate. }
  rewrite Hrest, orb_false_r. cbn [run pos Nat.eqb flat_map].
  now rewrite app_nil_r.
Qed.

(** A set on its own is found exactly when some character of the subject
    is in it. *)
Lemma search_has (items : list item) (s : str) :
  search (mkCompiled (has items) ic) s
  = existsb (set_match ic false items) s.
Proof.
  apply eq_true_iff_eq. unfold search. cbn [ast ignorecase].
  rewrite !existsb_exists. split.
  - intros [i [_ Hn]]. unfold has in Hn. cbn [run rest] in Hn.
    destruct (skipn i s) as [|ch r] eqn:Es; [discriminate|].
    destruct (set_match ic false items ch) eqn:Em; [|discriminate].
    exists ch. split; [|exact Em].
    rewrite <- (firstn_skipn i s), Es. apply in_or_app. right. now left.
  - intros [ch [Hin Hm]]. apply in_split in Hin.
    destruct Hin as [l1 [l2 ->]]. exists (length l1). split.
    + apply in_seq. rewrite length_app. simpl. lia.
    + unfold has. cbn [run rest].
      rewrite List.skipn_app, List.skipn_all, Nat.sub_diag. cbn [app].
      change (skipn 0 (ch :: l2)) with (ch :: l2). cbv iota.
      now rewrite Hm.
Qed.

(** Under the length rule, reaching a character of a set from the start
    is finding one anywhere, for a set that does not hold the newline. *)
Lemma reach_vs_has (f : char -> bool) :
  f 10%N = false ->
  forall s : str,
    (exists k, dots k s = true
               /\ (skipn k s = [] \/ skipn k s = [10%N])) ->
    (exists k ch r, dots k s = true /\ skipn k s = ch :: r /\ f ch = true)
    <-> existsb f s = true.
Proof.
  intros Hnl. induction s as [|c s IH]; intros Hend.
  - split; [|discriminate]. intros [k [ch [r [_ [Hs _]]]]].
    destruct k; discriminate.
  - cbn [existsb]. rewrite orb_true_iff.
    destruct Hend as [[|k] [Hd He]].
    + change (skipn 0 (c :: s)) with (c :: s) in He.
      destruct He as [He|He]; [discriminate|]. injection He as -> ->.
      split.
      * intros [k [ch [r [Hd' [Hs Hf]]]]]. destruct k as [|k].
        -- injection Hs as <- _. congruence.
        -- discriminate.
      * intros [Hf|Hf]; [congruence|discriminate].
    + cbn [dots] in Hd. apply andb_prop in Hd. destruct Hd as [Hc Hd].
      change (skipn (S k) (c :: s)) with (skipn k s) in He.
      rewrite <- (IH (ex_intro _ k (conj Hd He))). split.
      * intros [j [ch [r [Hd' [Hs Hf]]]]]. destruct j as [|j].
        -- injection Hs as <- _. now left.
        -- right. exists j, ch, r. cbn [dots] in Hd'.
           apply andb_prop in Hd'. repeat split; [apply Hd'|exact Hs|exact Hf].
      * intros [Hf|[j [ch [r [Hd' [Hs Hf]]]]]].
        -- exists 0%nat, c, s. repeat split. exact Hf.
        -- exists (S j), ch, r. cbn [dots]. rewrite Hc, Hd'.
           repeat split; [exact Hs|exact Hf].
Qed.

(** No set of the composite rules holds the newline, with or without the
    ignore-case flag. *)
Lemma newline_in_no_set :
  Forall (fun items => set_match ic false items 10%N = false)
    [lower_items; upper_items; digit_items; special_items].
Proof. destruct ic; repeat constructor. Qed.

(** The composite rule against its parts, as patterns. *)
Lemma strong_search (n : nat) (s : str) :
  search (mkCompiled (strong n) ic) s
  = search (mkCompiled (min_length n) ic) s
    && search (mkCompiled (has lower_items) ic) s
    && search (mkCompiled (has upper_items) ic) s
    && search (mkCompiled (has digit_items) ic) s
    && search (mkCompiled (has special_items) ic) s.
Proof.
  unfold strong, min_length. rewrite !search_anchored, !run_cat_look.
  rewrite !search_has.
  set (st := mkState 0 s []).
  destruct (nonempty (run ic (at_least n) st)) eqn:T.
  - apply run_at_least in T. destruct T as [k [_ [Hd He]]].
    cbn [rest st] in Hd, He.
    assert (Hset : forall items,
      set_match ic false items 10%N = false ->
      nonempty (run ic (reach items) st)
      = existsb (set_match ic false items) s).
    { intros items Hnl. apply eq_true_iff_eq.
      rewrite <- (reach_vs_has _ Hnl s (ex_intro _ k (conj Hd He))).
      rewrite nonempty_In. split.
      - intros [st' Hin]. apply run_reach in Hin.
        destruct Hin as [j [ch [r [Hj [Hs [Hm _]]]]]]. now exists j, ch, r.
      - intros [j [ch [r [Hj [Hs Hm]]]]]. exists (advance (j + 1) st).
        apply run_reach. now exists j, ch, r. }
    pose proof newline_in_no_set as Hnl.
    repeat match type of Hnl with
           | Forall _ (_ :: _) =>
               let H := fresh in
               apply Forall_cons_iff in Hnl; destruct Hnl as [H Hnl];
               rewrite (Hset _ H)
           end.
    now rewrite !andb_true_r, andb_true_l, !andb_assoc.
  - now rewrite !andb_false_r.
Qed.

End Shapes.
End SreFacts.

(** ** The catalog on the engine *)

Section CatalogOnEngine.
Context {ct : Sre.CaseTables}.
Variable str_lower : str -> str.
Variable error_text : str -> str.

Local Abbreviation engine := (Sre.runtime ct str_lower error_text).

Import Cli.

(** The composite rule of length [n] against the five rules it combines,
    as the line evaluator sees them. *)
Lemma strong_against_parts (ic : bool) (n : nat) (password : str) :
  @all_criteria_met engine [Sre.mkCompiled (Sre.strong n) ic] false ∅ ic
    password
  = @all_criteria_met engine
      [Sre.mkCompiled (Sre.min_length n) ic;
       Sre.mkCompiled (Sre.has Sre.lower_items) ic;
       Sre.mkCompiled (Sre.has Sre.upper_items) ic;
       Sre.mkCompiled (Sre.has Sre.digit_items) ic;
       Sre.mkCompiled (Sre.has Sre.special_items) ic]
      false ∅ ic password.
Proof.
  rewrite !all_criteria_met_eq. cbn [andb regex_loop].
  change (@re_search engine) with (@Sre.search ct).
  rewrite (SreFacts.strong_search ic n password).
  repeat match goal with
         | |- context [Sre.search ?rx password] =>
             destruct (Sre.search rx password)
         end; reflexivity.
Qed.

(** C7: compiled by the engine, with or without the ignore-case flag, the
    rule strong-8-plus-all-types accepts a candidate exactly when the five
    rules min-length-8, has-lowercase, has-uppercase, has-digit and
    has-special-char all accept it; likewise strong-12-plus-all-types with
    min-length-12. *)
Theorem strong_rules_are_conjunctions (ignore_case : bool) :
  (exists strong parts,
     @compile_patterns engine
       (Some (flat_map patterns_of [lit "strong_8_plus_all_types"]))
       ignore_case world0 = (Ret strong, world0)
     /\ @compile_patterns engine
          (Some (flat_map patterns_of
                   [lit "min_length_8"; lit "has_lowercase";
                    lit "has_uppercase"; lit "has_digit";
                    lit "has_special_char"]))
          ignore_case world0 = (Ret parts, world0)
     /\ length strong = 1%nat /\ length parts = 5%nat
     /\ forall password,
          @all_criteria_met engine strong false ∅ ignore_case password
          = @all_criteria_met engine parts false ∅ ignore_case password)
  /\ (exists strong parts,
        @compile_patterns engine
          (Some (flat_map patterns_of [lit "strong_12_plus_all_types"]))
          ignore_case world0 = (Ret strong, world0)
        /\ @compile_patterns engine
             (Some (flat_map patterns_of
                      [lit "min_length_12"; lit "has_lowercase";
                       lit "has_uppercase"; lit "has_digit";
                       lit "has_special_char"]))
             ignore_case world0 = (Ret parts, world0)
        /\ length strong = 1%nat /\ length parts = 5%nat
        /\ forall password,
             @all_criteria_met engine strong false ∅ ignore_case password
             = @all_criteria_met engine parts false ∅ ignore_case
                 password).
Proof.
  split.
  - exists [Sre.mkCompiled (Sre.strong 8) ignore_case],
      [Sre.mkCompiled (Sre.min_length 8) ignore_case;
       Sre.mkCompiled (Sre.has Sre.lower_items) ignore_case;
       Sre.mkCompiled (Sre.has Sre.upper_items) ignore_case;
       Sre.mkCompiled (Sre.has Sre.digit_items) ignore_case;
       Sre.mkCompiled (Sre.has Sre.special_items) ignore_case].
    split; [vm_compute; reflexivity|]. split; [vm_compute; reflexivity|].
    split; [reflexivity|]. split; [reflexivity|].
    apply strong_against_parts.
  - exists [Sre.mkCompiled (Sre.strong 12) ignore_case],
      [Sre.mkCompiled (Sre.min_length 12) ignore_case;
       Sre.mkCompiled (Sre.has Sre.lower_items) ignore_case;
       Sre.mkCompiled (Sre.has Sre.upper_items) ignore_case;
       Sre.mkCompiled (Sre.has Sre.digit_items) ignore_case;
       Sre.mkCompiled (Sre.has Sre.special_items) ignore_case].
    split; [vm_compute; reflexivity|]. split; [vm_compute; reflexivity|].
    split; [reflexivity|]. split; [reflexivity|].
    apply strong_against_parts.
Qed.

(** C1 (amended): on the five raw lines abc, ABCDEFGH, the empty line, a
    line of two spaces and Passw0rd!, the preset min-length-8, not
    inverted, writes ABCDEFGH and Passw0rd! in that order; the line loop
    ends with 5 lines read, 3 of them valid (two of the five are blank) and
    2 emitted, and the summary line says so. *)
Theorem example_min_length_8 :
  let wordlist_file :=
    [lit "abc"; lit "ABCDEFGH"; lit ""; lit "  "; lit "Passw0rd!"] in
  let written := [terminated (lit "ABCDEFGH"); terminated (lit "Passw0rd!")] in
  @main engine
    (mkNamespace wordlist_file (Some [lit "min_length_8"]) None SysStdout
       false false None false) world0
  = (Ret tt,
     mkWorld written
       [terminated
          (lit "Processed 3 valid passwords from 5 total lines. Matched: 2.")]
       [])
  /\ exists compiled_regexes,
       @compile_patterns engine
         (Some (flat_map patterns_of [lit "min_length_8"]))
         false world0 = (Ret compiled_regexes, world0)
       /\ @process_lines engine wordlist_file SysStdout compiled_regexes false ∅
            false false world0
          = (Ret (mkCounters 2 5 3), mkWorld written [] []).
Proof.
  split.
  - vm_compute. reflexivity.
  - exists [Sre.mkCompiled (Sre.min_length 8) false].
    split; vm_compute; reflexivity.
Qed.

End CatalogOnEngine.

(** ** Closed instances *)

(** C1 as stated, with 4 valid lines among the five, does not hold: the
    line loop of the closed runtime never ends with the counters 2, 5, 4 on
    that wordlist, whatever compiled pattern min-length-8 stands for. *)
Lemma example_min_length_8_four_valid_fails :
  ~ exists compiled_regexes w,
      @compile_patterns plain_runtime
        (Some (flat_map patterns_of [lit "min_length_8"])) false world0
      = (Ret compiled_regexes, world0)
      /\ @process_lines plain_runtime
           [lit "abc"; lit "ABCDEFGH"; lit ""; lit "  "; lit "Passw0rd!"]
           SysStdout compiled_regexes false ∅ false false world0
         = (Ret (mkCounters 2 5 4), w).
Proof.
  intros [rxs [w [Hc Hp]]].
  vm_compute in Hc. injection Hc as <-.
  vm_compute in Hp. discriminate.
Qed.

(** The engine searches: a pattern is found anywhere in the subject, and
    only the anchors written in it tie it to the ends. *)
Example search_is_not_full_match :
  match @re_compile plain_runtime (lit "b") false,
        @re_compile plain_runtime (lit "^b") false,
        @re_compile plain_runtime (lit "^(apple|banana)$") false with
  | inl b, inl hat_b, inl fruit =>
      @re_search plain_runtime b (lit "abc") = true
      /\ @re_search plain_runtime hat_b (lit "abc") = false
      /\ map (@re_search plain_runtime fruit)
           [lit "apple"; lit "applesauce"; lit "banana"]
         = [true; false; true]
  | _, _, _ => False
  end.
Proof. vm_compute. repeat split. Qed.

(** The dictionary rule with and without the case flag, and the two
    contradictory rules only-digits and no-digits together. *)
Example dictionary_and_contradiction :
  let run presets ignore_case wordlist :=
    emitted_lines SysStdout
      (snd (@Cli.main plain_runtime
              (Cli.mkNamespace wordlist (Some presets) None SysStdout false
                 ignore_case (Some [lit "password"; lit "qwerty"]) false)
              world0)) in
  run [lit "dict"] false [lit "password"; lit "Password"; lit "hunter2"]
  = [lit "password"]
  /\ run [lit "dict"] true [lit "password"; lit "Password"; lit "hunter2"]
     = [lit "password"; lit "Password"]
  /\ run [lit "onlydig"; lit "nodig"] false
       [lit "12345"; lit "abc"; lit "a1"] = [].
Proof. vm_compute. repeat split. Qed.

(** The command line [--regex ''] selects nothing; the run is refused. *)
Lemma zero_criteria_rejected_witness :
  Cli.list_presets
    (Cli.mkNamespace [lit "abc"] None (Some []) SysStdout false false None
       false) = false
  /\ @Cli.select plain_runtime
       (Cli.mkNamespace [lit "abc"] None (Some []) SysStdout false false None
          false) world0 = (Ret ([], None), world0)
  /\ @Cli.main plain_runtime
       (Cli.mkNamespace [lit "abc"] None (Some []) SysStdout false false None
          false) world0
     = (Exit 2,
        mkWorld []
          [usage_error_text
             (lit "No filtering criteria specified. Use --presets or --regex.")]
          [])
  /\ sink SysStdout
       (snd (@Cli.main plain_runtime
               (Cli.mkNamespace [lit "abc"] None (Some []) SysStdout false
                  false None false) world0)) = [].
Proof.
  split; [reflexivity|]. split; [reflexivity|].
  apply (@zero_criteria_rejected plain_runtime
           (Cli.mkNamespace [lit "abc"] None (Some []) SysStdout false false
              None false) world0 world0); reflexivity.
Defined.

(** A line of two spaces between two candidates. *)
Lemma blank_line_excluded_witness :
  forallb isspace (lit "  ") = true
  /\ exists c1 c0 w',
       @process_lines plain_runtime
         ([lit "abc"] ++ lit "  " :: [lit "Passw0rd!"]) SysStdout [] false ∅
         false false world0 = (Ret c1, w')
       /\ @process_lines plain_runtime ([lit "abc"] ++ [lit "Passw0rd!"])
            SysStdout [] false ∅ false false world0 = (Ret c0, w')
       /\ count_valid_passwords c1 = count_valid_passwords c0
       /\ count_matched c1 = count_matched c0
       /\ count_total_processed_lines c1 = count_total_processed_lines c0 + 1
       /\ ~ In (terminated (strip (lit "  ")))
              (sink SysStdout
                 (snd (@process_lines plain_runtime
                         ([lit "abc"] ++ lit "  " :: [lit "Passw0rd!"])
                         SysStdout [] false ∅ false false world0))).
Proof.
  split; [reflexivity|].
  apply (@blank_line_excluded plain_runtime [lit "abc"] [lit "Passw0rd!"]
           (lit "  ") SysStdout [] false ∅ false false world0).
  reflexivity.
Defined.

(** * Further properties of the code *)

(** ** core.py: the line loop and [filter_passwords] *)

Section CoreMore.
Context {rt : Runtime}.

Lemma strip_idempotent (raw : str) : strip (strip raw) = strip raw.
Proof.
  unfold strip. set (q := lstrip raw).
  assert (Hq : forall c r, q = c :: r -> isspace c = false)
    by (intros c r; apply lstrip_head).
  clearbody q.
  assert (Hpre : exists t, q = rstrip q ++ t).
  { clear. induction q as [|c q IH] using rev_ind.
    - now exists [].
    - rewrite rstrip_snoc. destruct (isspace c).
      + destruct IH as [t Ht]. exists (t ++ [c]).
        now rewrite app_assoc, <- Ht.
      + exists []. now rewrite app_nil_r. }
  destruct (rstrip q) as [|c p] eqn:Ep; [reflexivity|].
  destruct Hpre as [t Ht].
  assert (Hc : isspace c = false) by (apply (Hq c (p ++ t)); exact Ht).
  simpl. rewrite Hc.
  destruct (exists_last (l := c :: p)) as [r [d E]]; [discriminate|].
  assert (Hd : isspace d = false).
  { rewrite <- Ep in E. unfold rstrip in E.
    apply (f_equal (@rev _)) in E.
    rewrite rev_involutive, rev_app_distr in E. simpl in E.
    eapply lstrip_head; exact E. }
  now rewrite E, rstrip_snoc, Hd.
Qed.

Lemma write_all_app (out : OutFile) (a b : list str) (w : World) :
  write_all out (a ++ b) w = write_all out b (write_all out a w).
Proof. destruct out; simpl; now rewrite app_assoc. Qed.

Lemma selected_app (rxs : list Pattern) (act : bool) (words : gset str)
    (inv ic : bool) (l1 l2 : InFile) :
  selected rxs act words inv ic (l1 ++ l2)
  = selected rxs act words inv ic l1 ++ selected rxs act words inv ic l2.
Proof. unfold selected. now rewrite candidates_app, List.filter_app. Qed.

(** X1: Running the loop over a wordlist in two parts, the second from the
    world the first leaves, is running it over the whole: the output is the
    concatenation and the counters add up. *)
Theorem process_lines_append (l1 l2 : InFile) (output_file : OutFile)
    (compiled_regexes : list Pattern) (is_dictionary_filter_active : bool)
    (dictionary_words : gset str) (invert_match ignore_case : bool)
    (w : World) :
  let run (lines : InFile) :=
    process_lines lines output_file compiled_regexes
      is_dictionary_filter_active dictionary_words invert_match ignore_case in
  exists c1 w1 c2 w2,
    run l1 w = (Ret c1, w1)
    /\ run l2 w1 = (Ret c2, w2)
    /\ run (l1 ++ l2) w
       = (Ret (mkCounters
                 (count_matched c1 + count_matched c2)
                 (count_total_processed_lines c1
                  + count_total_processed_lines c2)
                 (count_valid_passwords c1 + count_valid_passwords c2)),
          w2).
Proof.
  cbv beta zeta. rewrite !process_lines_eq.
  eexists _, _, _, _. split; [reflexivity|].
  rewrite process_lines_eq. split; [reflexivity|].
  cbn [count_matched count_total_processed_lines count_valid_passwords].
  rewrite selected_app, candidates_app, map_app, write_all_app, !length_app.
  apply loop_result; [|reflexivity]. apply counters_eq; lia.
Qed.

Lemma filter_length_le' {A} (f : A -> bool) (l : list A) :
  (length (List.filter f l) <= length l)%nat.
Proof.
  induction l as [|x l IH]; simpl; [lia|]. destruct (f x); simpl; lia.
Qed.

Lemma filter_partition_length {A} (f : A -> bool) (l : list A) :
  (length (List.filter f l) + length (List.filter (fun x => negb (f x)) l)
   = length l)%nat.
Proof.
  induction l as [|x l IH]; simpl; [lia|]. destruct (f x); simpl; lia.
Qed.

(** X2: The counters at the end of the loop: every line is counted as read,
    the valid lines are among the lines read and the emitted lines among
    the valid ones. *)
Theorem counters_bounds (wordlist_file : InFile) (output_file : OutFile)
    (compiled_regexes : list Pattern) (is_dictionary_filter_active : bool)
    (dictionary_words : gset str) (invert_match ignore_case : bool)
    (w : World) :
  exists c w',
    process_lines wordlist_file output_file compiled_regexes
      is_dictionary_filter_active dictionary_words invert_match ignore_case w
    = (Ret c, w')
    /\ count_total_processed_lines c = Z.of_nat (length wordlist_file)
    /\ 0 <= count_matched c <= count_valid_passwords c
    /\ count_valid_passwords c <= count_total_processed_lines c.
Proof.
  rewrite process_lines_eq. eexists _, _. split; [reflexivity|].
  cbn [count_matched count_total_processed_lines count_valid_passwords].
  pose proof (filter_length_le'
    (keeps compiled_regexes is_dictionary_filter_active dictionary_words
       invert_match ignore_case) (candidates wordlist_file)) as H1.
  pose proof (filter_length_le' truthy (map strip wordlist_file)) as H2.
  rewrite length_map in H2. unfold selected, candidates in *. lia.
Qed.

(** X3: The inverted and the plain run over the same wordlist count the same
    valid lines, and between them emit each valid line exactly once. *)
Theorem inverted_counts_complement (wordlist_file : InFile)
    (output_file : OutFile) (compiled_regexes : list Pattern)
    (is_dictionary_filter_active : bool) (dictionary_words : gset str)
    (ignore_case : bool) (w : World) :
  let run (invert_match : bool) :=
    process_lines wordlist_file output_file compiled_regexes
      is_dictionary_filter_active dictionary_words invert_match ignore_case
      w in
  exists c w' ci wi,
    run false = (Ret c, w') /\ run true = (Ret ci, wi)
    /\ count_valid_passwords ci = count_valid_passwords c
    /\ count_matched c + count_matched ci = count_valid_passwords c.
Proof.
  cbv beta zeta. rewrite !process_lines_eq.
  eexists _, _, _, _. split; [reflexivity|]. split; [reflexivity|].
  cbn [count_matched count_valid_passwords]. split; [reflexivity|].
  unfold selected.
  pose proof (filter_partition_length
    (keeps compiled_regexes is_dictionary_filter_active dictionary_words
       false ignore_case) (candidates wordlist_file)) as Hlen.
  rewrite (filter_ext
             (keeps compiled_regexes is_dictionary_filter_active
                dictionary_words true ignore_case)
             (fun x => negb (keeps compiled_regexes
                               is_dictionary_filter_active dictionary_words
                               false ignore_case x))).
  - lia.
  - intros p. unfold keeps. now destruct (all_criteria_met _ _ _ _ p).
Qed.

Lemma filter_sublist {A} (f : A -> bool) (l : list A) :
  List.filter f l `sublist_of` l.
Proof.
  induction l as [|x l IH]; simpl; [constructor|].
  destruct (f x); now constructor.
Qed.

(** X4: What the loop writes: lines of the wordlist, trimmed, in the order of
    the wordlist and without repetition beyond the wordlist's own; each
    written line is non-empty and trimming it again changes nothing. *)
Theorem emitted_lines_trimmed (wordlist_file : InFile)
    (output_file : OutFile) (compiled_regexes : list Pattern)
    (is_dictionary_filter_active : bool) (dictionary_words : gset str)
    (invert_match ignore_case : bool) :
  let emitted :=
    emitted_lines output_file
      (snd (process_lines wordlist_file output_file compiled_regexes
              is_dictionary_filter_active dictionary_words invert_match
              ignore_case world0)) in
  emitted `sublist_of` map strip wordlist_file
  /\ forall p, In p emitted -> p <> [] /\ strip p = p.
Proof.
  cbv beta zeta. rewrite emitted_process_lines. split.
  - unfold selected, candidates.
    etransitivity; apply filter_sublist.
  - intros p Hp. apply selected_In in Hp. destruct Hp as [Hp _].
    unfold candidates in Hp. apply filter_In in Hp.
    destruct Hp as [Hp Ht]. apply in_map_iff in Hp.
    destruct Hp as [raw [<- _]]. split.
    + intros E. rewrite E in Ht. discriminate.
    + apply strip_idempotent.
Qed.

(** X5: Only the trimmed form of a raw line matters: two wordlists whose lines
    trim to the same strings, line by line, give the same run. *)
Theorem padding_is_irrelevant (l1 l2 : InFile) (output_file : OutFile)
    (compiled_regexes : list Pattern) (is_dictionary_filter_active : bool)
    (dictionary_words : gset str) (invert_match ignore_case : bool)
    (w : World) :
  map strip l1 = map strip l2 ->
  process_lines l1 output_file compiled_regexes is_dictionary_filter_active
    dictionary_words invert_match ignore_case w
  = process_lines l2 output_file compiled_regexes
      is_dictionary_filter_active dictionary_words invert_match ignore_case w.
Proof.
  intros H. rewrite !process_lines_eq. unfold selected, candidates.
  rewrite H. apply loop_result; [|reflexivity].
  apply counters_eq; try reflexivity.
  apply (f_equal (@length _)) in H. rewrite !length_map in H. now rewrite H.
Qed.

Lemma regex_loop_perm (r1 r2 : list Pattern) (p : str) :
  Permutation r1 r2 -> regex_loop r1 p = regex_loop r2 p.
Proof.
  induction 1 as [|x l l' _ IH|x y l|l l' l'' _ IH1 _ IH2]; simpl.
  - reflexivity.
  - now rewrite IH.
  - destruct (re_search x p), (re_search y p); reflexivity.
  - congruence.
Qed.

(** X6: The order in which the compiled patterns are tried cannot be observed:
    a run with the patterns rearranged is the same run. *)
Theorem pattern_order_is_irrelevant (wordlist_file : InFile)
    (output_file : OutFile) (r1 r2 : list Pattern)
    (is_dictionary_filter_active : bool) (dictionary_words : gset str)
    (invert_match ignore_case : bool) (w : World) :
  Permutation r1 r2 ->
  process_lines wordlist_file output_file r1 is_dictionary_filter_active
    dictionary_words invert_match ignore_case w
  = process_lines wordlist_file output_file r2 is_dictionary_filter_active
      dictionary_words invert_match ignore_case w.
Proof.
  intros Hp. rewrite !process_lines_eq.
  assert (Hs : selected r1 is_dictionary_filter_active dictionary_words
                 invert_match ignore_case wordlist_file
               = selected r2 is_dictionary_filter_active dictionary_words
                   invert_match ignore_case wordlist_file).
  { unfold selected. apply filter_ext. intros p. unfold keeps.
    now rewrite !all_criteria_met_eq, (regex_loop_perm r1 r2 p Hp). }
  now rewrite Hs.
Qed.

End CoreMore.

Section FilterPasswords.
Context {rt : Runtime}.

Lemma add_word_fold (ic : bool) (lines : InFile) :
  forall (acc : gset str) (word : str),
    word ∈ fold_left (add_word ic) lines acc
    <-> word ∈ acc
        \/ exists line, In line lines /\ strip line <> []
                        /\ word = (if ic then lower (strip line)
                                   else strip line).
Proof.
  induction lines as [|l lines IH]; intros acc word; cbn [fold_left].
  - split; [now left|]. intros [H|[? [[] _]]]. exact H.
  - rewrite IH. unfold add_word at 1.
    destruct (strip l) as [|c s] eqn:El; cbn [truthy negb].
    + split.
      * intros [H|[line [Hin H]]]; [now left|]. right. exists line.
        split; [now right|exact H].
      * intros [H|[line [[<-|Hin] [Hne H]]]]; [now left| |].
        -- congruence.
        -- right. now exists line.
    + split.
      * intros [H|[line [Hin H]]].
        -- destruct ic; apply elem_of_union in H;
             destruct H as [H|H]; try (now left);
             apply elem_of_singleton in H; right; exists l;
             rewrite El; (split; [now left|]); (split; [discriminate|]);
             exact H.
        -- right. exists line. split; [now right|exact H].
      * intros [H|[line [[<-|Hin] [Hne H]]]].
        -- left. destruct ic; apply elem_of_union; now right.
        -- left. rewrite El in H. subst word.
           destruct ic; apply elem_of_union; left;
             now apply elem_of_singleton.
        -- right. now exists line.
Qed.

(** X7: The word set read from a dictionary file: exactly the trimmed,
    non-empty lines of the file, lower-cased when the case flag is set;
    blank lines, repetitions and the order of the lines leave no trace. *)
Theorem load_dictionary_members (lines : InFile) (ignore_case : bool)
    (word : str) :
  word ∈ load_dictionary (Some lines) ignore_case
  <-> exists line, In line lines /\ strip line <> []
                   /\ word = (if ignore_case then lower (strip line)
                              else strip line).
Proof.
  cbn [load_dictionary]. rewrite add_word_fold. split.
  - intros [H|H]; [|exact H]. now apply not_elem_of_empty in H.
  - intros H. now right.
Qed.

Lemma for_each_app {A S} (body : S -> A -> Proc S) (l1 l2 : list A) :
  forall (s : S) (w : World),
    for_each body (l1 ++ l2) s w
    = bind (for_each body l1 s) (for_each body l2) w.
Proof.
  induction l1 as [|x l1 IH]; intros s w; cbn [app for_each].
  - reflexivity.
  - unfold bind in *. destruct (body s x w) as [[s'|c] w'];
      [apply IH|reflexivity].
Qed.

Lemma compile_loop_ok (ic : bool) (ps : list str) :
  forall (rxs acc : list Pattern) (w : World),
    compile_list ps ic = Some rxs ->
    for_each (compile_step ic) ps acc w = (Ret (acc ++ rxs), w).
Proof.
  induction ps as [|p ps IH]; intros rxs acc w; cbn [compile_list for_each].
  - intros [= <-]. now rewrite app_nil_r.
  - unfold compile_step at 1. destruct (re_compile p ic) as [rx|e];
      [|discriminate].
    destruct (compile_list ps ic) as [rs|] eqn:E; [|discriminate].
    intros [= <-].
    rewrite (bind_ret_eq _ _ (acc ++ [rx]) w w eq_refl), (IH rs _ _ eq_refl).
    now rewrite <- app_assoc.
Qed.

(** X8: A pattern the regex compiler refuses ends the process with status 1
    before the dictionary or the wordlist is looked at: the only trace is
    one diagnostic line naming the first such pattern and the compiler's
    message; nothing is written to the output. *)
Theorem compile_failure_exits (wordlist_file : InFile)
    (output_file : OutFile) (good rest : list str) (bad e : str)
    (rxs : list Pattern) (dictionary_file : option InFile)
    (invert_match ignore_case : bool) (w : World) :
  compile_list good ignore_case = Some rxs ->
  re_compile bad ignore_case = inr e ->
  filter_passwords wordlist_file output_file (Some (good ++ bad :: rest))
    dictionary_file invert_match ignore_case w
  = (Exit 1,
     mkWorld (stdout w)
       (stderr w
        ++ [terminated (lit "Error: Invalid regex pattern '" ++ bad
                        ++ lit "': " ++ e)])
       (outfile w)).
Proof.
  intros Hg Hb. unfold filter_passwords, compile_patterns.
  assert (Hne : nonempty (good ++ bad :: rest) = true)
    by now destruct good.
  rewrite Hne.
  apply bind_exit_eq. rewrite for_each_app.
  rewrite (bind_ret_eq _ _ _ _ _ (compile_loop_ok _ _ rxs [] w Hg)).
  cbn [for_each]. apply bind_exit_eq.
  unfold compile_step. rewrite Hb. reflexivity.
Qed.

(** X9: When every pattern compiles, [filter_passwords] returns normally; it
    has written the kept candidates to the output, in order, and one
    summary line with the three counts to the diagnostic stream, and
    nothing else. *)
Theorem filter_passwords_success (wordlist_file : InFile)
    (output_file : OutFile) (patterns : list str) (rxs : list Pattern)
    (dictionary_file : option InFile) (invert_match ignore_case : bool)
    (w : World) :
  compile_list patterns ignore_case = Some rxs ->
  let kept :=
    selected rxs (Cli.is_some dictionary_file)
      (load_dictionary dictionary_file ignore_case) invert_match ignore_case
      wordlist_file in
  filter_passwords wordlist_file output_file (Some patterns) dictionary_file
    invert_match ignore_case w
  = (Ret tt,
     snd (eprint
            (summary output_file
               (mkCounters (Z.of_nat (length kept))
                  (Z.of_nat (length wordlist_file))
                  (Z.of_nat (length (candidates wordlist_file)))))
            (write_all output_file (map terminated kept) w))).
Proof.
  intros Hc. cbv zeta. unfold filter_passwords.
  assert (Hp : compile_patterns (Some patterns) ignore_case w = (Ret rxs, w)).
  { unfold compile_patterns. destruct patterns as [|p ps].
    - cbn in Hc. now injection Hc as <-.
    - cbn [nonempty]. apply (compile_loop_ok _ _ rxs [] w Hc). }
  rewrite (bind_ret_eq _ _ _ _ _ Hp). unfold bind.
  rewrite process_lines_eq. reflexivity.
Qed.

(** X10: A dictionary file without a single non-blank line still switches the
    dictionary filter on: no candidate passes, so a plain run writes
    nothing and an inverted run writes every candidate. *)
Theorem blank_dictionary_rejects_all (wordlist_file : InFile)
    (output_file : OutFile) (lines : InFile)
    (invert_match ignore_case : bool) :
  forallb (forallb isspace) lines = true ->
  sink output_file
    (snd (filter_passwords wordlist_file output_file None (Some lines)
            invert_match ignore_case world0))
  = if invert_match then map terminated (candidates wordlist_file) else [].
Proof.
  intros Hb. unfold filter_passwords, compile_patterns, bind, ret.
  rewrite process_lines_eq. cbn [snd eprint].
  assert (Hw : load_dictionary (Some lines) ignore_case = ∅).
  { apply set_eq. intros word. cbn [load_dictionary].
    rewrite add_word_fold.
    split; [|intros H; now apply not_elem_of_empty in H].
    intros [H|[line [Hin [Hne _]]]]; [exact H|].
    exfalso. apply Hne. apply strip_blank.
    rewrite forallb_forall in Hb. now apply Hb. }
  rewrite Hw. unfold selected.
  assert (Hk : forall p, keeps [] true ∅ invert_match ignore_case p
                         = invert_match).
  { intros p. unfold keeps. rewrite all_criteria_met_eq.
    rewrite bool_decide_eq_false_2 by apply not_elem_of_empty.
    now destruct invert_match. }
  destruct invert_match.
  - rewrite filter_all by (intros; apply Hk). now destruct output_file.
  - rewrite filter_none by (intros; apply Hk). now destruct output_file.
Qed.

End FilterPasswords.

(** ** presets.py: the catalog and its index *)

Module PresetMore.
Import Presets PresetFacts.

Lemma names_distinct : NoDup (map fst PRESETS).
Proof. apply (bool_decide_unpack _). vm_compute. exact I. Qed.

Lemma names_not_empty : Forall (fun e => truthy (fst e) = true) PRESETS.
Proof. apply (bool_decide_unpack _). vm_compute. exact I. Qed.

Lemma dict_get_unique {V} (d : list (str * V)) (k : str) (v : V) :
  NoDup (map fst d) -> In (k, v) d -> dict_get d k = Some v.
Proof.
  induction d as [|[k' v'] d IH]; cbn [map fst dict_get]; [intros _ []|].
  intros Hnd [[= -> ->]|Hin].
  - now rewrite bool_decide_eq_true_2.
  - apply NoDup_cons in Hnd. destruct Hnd as [Hk Hnd].
    rewrite bool_decide_eq_false_2; [now apply IH|].
    intros ->. apply Hk, list_elem_of_In, in_map_iff. now exists (k', v).
Qed.

(** X11: The index and the catalog agree: looking up the id of a catalog entry
    in the index gives the entry's name, looking up that name in the
    catalog gives the entry back, and the index has one key per entry. *)
Theorem index_round_trip :
  Forall (fun e =>
            PRESET_ID_TO_NAME_MAP !! id (snd e) = Some (fst e)
            /\ dict_get PRESETS (fst e) = Some (snd e)) PRESETS
  /\ size PRESET_ID_TO_NAME_MAP = length PRESETS.
Proof.
  split.
  - apply List.Forall_forall. intros [name d] Hin. cbn [fst snd]. split.
    + apply (id_index_lookup _ _ _ ids_distinct). now exists d.
    + apply dict_get_unique; [apply names_distinct|exact Hin].
  - vm_compute. reflexivity.
Qed.

(** X12: What an identifier resolves to is a canonical name: a non-empty key of
    the catalog that resolves to itself. *)
Theorem resolved_is_canonical (identifier name : str) :
  get_preset_by_name_or_id identifier = Some name ->
  get_preset_by_name_or_id name = Some name
  /\ dict_in name PRESETS = true
  /\ name <> [].
Proof.
  intros H. apply get_preset_Some in H. destruct H as [d [Hin _]].
  split; [|split].
  - apply get_preset_Some. exists d. auto.
  - apply (dict_in_true _ _ _ Hin).
  - pose proof names_not_empty as Hf. rewrite List.Forall_forall in Hf.
    specialize (Hf _ Hin). cbn [fst] in Hf. intros ->. discriminate.
Qed.

Lemma id_keys_In (d : list (str * Preset)) (k : str) :
  In k (id_keys d) <-> exists name details, In (name, details) d
                                            /\ id details = k.
Proof.
  unfold id_keys. induction d as [|[n dt] d IH] using rev_ind.
  - simpl. split; [intros []|now intros [? [? [[] _]]]].
  - rewrite fold_left_app. cbn [fold_left].
    set (ks := fold_left _ d []) in *.
    assert (Hstep : In k (if bool_decide (id dt ∈ ks) then ks
                          else ks ++ [id dt])
                    <-> In k ks \/ id dt = k).
    { case_bool_decide as Hd.
      - split; [now left|]. intros [H|<-]; [exact H|].
        now apply list_elem_of_In.
      - rewrite in_app_iff. simpl. tauto. }
    rewrite Hstep, IH. split.
    + intros [[name [details [Hin Hid]]]|Hid].
      * exists name, details. split; [|exact Hid].
        apply in_or_app. now left.
      * exists n, dt. split; [|exact Hid]. apply in_or_app. right. now left.
    + intros [name [details [Hin Hid]]]. apply in_app_or in Hin.
      destruct Hin as [Hin|[[= -> ->]|[]]].
      * left. now exists name, details.
      * now right.
Qed.

(** X13: The values the argument parser admits for a preset are exactly the
    identifiers that resolve: after parsing, the test for an unknown
    identifier in [main] cannot fire. *)
Theorem choices_are_the_resolvable (identifier : str) :
  In identifier ALL_PRESET_CHOICES
  <-> exists name, get_preset_by_name_or_id identifier = Some name.
Proof.
  unfold ALL_PRESET_CHOICES. rewrite in_app_iff, in_map_iff, id_keys_In.
  split.
  - intros [[[n d] [E Hin]]|[n [d [Hin E]]]]; cbn [fst] in *.
    + subst n. exists identifier. apply get_preset_Some. exists d. auto.
    + exists n. apply get_preset_Some. exists d. auto.
  - intros [name H]. apply get_preset_Some in H.
    destruct H as [d [Hin [-> | ->]]].
    + left. now exists (name, d).
    + right. now exists name, d.
Qed.

End PresetMore.

(** A short id resolves to a canonical name, which resolves to itself. *)
Lemma resolved_is_canonical_witness :
  Presets.get_preset_by_name_or_id (lit "ml8") = Some (lit "min_length_8")
  /\ Presets.get_preset_by_name_or_id (lit "min_length_8")
     = Some (lit "min_length_8")
  /\ Presets.dict_in (lit "min_length_8") Presets.PRESETS = true
  /\ lit "min_length_8" <> [].
Proof.
  split; [vm_compute; reflexivity|].
  apply (PresetMore.resolved_is_canonical (lit "ml8") (lit "min_length_8")).
  vm_compute. reflexivity.
Defined.

(** ** cli.py: [main] *)

Section CliMore.
Context {rt : Runtime}.
Import Presets Cli.

Lemma resolved_get (x : str) : resolved x = get_preset_by_name_or_id x.
Proof.
  unfold resolved. destruct (get_preset_by_name_or_id x) as [n|] eqn:E;
    [|reflexivity].
  apply PresetFacts.get_preset_Some in E. destruct E as [d [Hin _]].
  pose proof PresetMore.names_not_empty as Hf.
  rewrite List.Forall_forall in Hf. specialize (Hf _ Hin). cbn [fst] in Hf.
  now rewrite Hf.
Qed.

Lemma resolve_step_ok (chosen : list str) (uses : bool) (x n : str)
    (w : World) :
  get_preset_by_name_or_id x = Some n ->
  resolve_step (chosen, uses) x w
  = (Ret (if bool_decide (n ∉ chosen) then chosen ++ [n] else chosen,
          if is_dictionary_rule n then true else uses), w).
Proof.
  intros H. pose proof (resolved_get x) as Hr. rewrite H in Hr.
  unfold resolved in Hr. rewrite H in Hr.
  unfold resolve_step. rewrite H.
  destruct (truthy n); [reflexivity|discriminate].
Qed.

Lemma resolve_step_bad (st : list str * bool) (x : str) (w : World) :
  get_preset_by_name_or_id x = None ->
  resolve_step st x w
  = (Exit 2,
     mkWorld (stdout w)
       (stderr w
        ++ [parser_error_text (lit "Unknown preset identifier: " ++ x)])
       (outfile w)).
Proof. intros H. destruct st. unfold resolve_step. now rewrite H. Qed.

(** The resolution loop over identifiers that all resolve: it succeeds,
    writes nothing, chooses only catalog keys and records whether the
    dictionary rule is among them. *)
Lemma resolve_loop_ok (l : list str) :
  forall (chosen : list str) (uses : bool) (w : World),
    Forall (fun x => get_preset_by_name_or_id x <> None) l ->
    exists chosen',
      for_each resolve_step l (chosen, uses) w
      = (Ret (chosen',
              uses || existsb
                        (fun x => bool_decide
                                    (get_preset_by_name_or_id x
                                     = Some (lit "in_dictionary"))) l), w)
      /\ forall n, In n chosen' ->
                   In n chosen
                   \/ exists x, In x l
                                /\ get_preset_by_name_or_id x = Some n.
Proof.
  induction l as [|x l IH]; intros chosen uses w Hall.
  - exists chosen. cbn [for_each existsb]. rewrite orb_false_r.
    split; [reflexivity|]. now left.
  - apply Forall_cons_iff in Hall. destruct Hall as [Hx Hl].
    destruct (get_preset_by_name_or_id x) as [n|] eqn:E; [|congruence].
    cbn [for_each existsb].
    rewrite (bind_ret_eq _ _ _ _ _ (resolve_step_ok chosen uses x n w E)).
    destruct (IH (if bool_decide (n ∉ chosen) then chosen ++ [n] else chosen)
                (if is_dictionary_rule n then true else uses) w Hl)
      as [chosen' [Hrun Hin]].
    exists chosen'. split.
    + rewrite Hrun, E. f_equal. f_equal. f_equal. unfold is_dictionary_rule.
      destruct (decide (n = lit "in_dictionary")) as [->|Hn].
      * rewrite !bool_decide_eq_true_2 by reflexivity.
        now destruct uses.
      * rewrite (bool_decide_eq_false_2 _ Hn).
        rewrite bool_decide_eq_false_2 by congruence. reflexivity.
    + intros m Hm. destruct (Hin m Hm) as [Hc|[y [Hy Ey]]].
      * case_bool_decide.
        -- apply in_app_or in Hc. destruct Hc as [Hc|[<-|[]]];
             [now left|]. right. exists x. split; [now left|exact E].
        -- now left.
      * right. exists y. split; [now right|exact Ey].
Qed.


(** X15: Selecting the dictionary rule, by name or by id and anywhere among
    identifiers that all resolve, without a dictionary file ends the run
    with status 2 and the message asking for one; nothing is written to
    the output. *)
Theorem dictionary_file_required (args : Namespace) (ps : list str)
    (w : World) :
  list_presets args = false ->
  presets args = Some ps ->
  Forall (fun k => get_preset_by_name_or_id k <> None) ps ->
  Exists (fun k => get_preset_by_name_or_id k = Some (lit "in_dictionary"))
    ps ->
  dictionary_file args = None ->
  main args w
  = (Exit 2,
     mkWorld (stdout w)
       (stderr w
        ++ [parser_error_text
              (lit "--dictionary-file is required when using the 'in_dictionary' (or 'dict') preset.")])
       (outfile w)).
Proof.
  intros Hl Hp Hk Hd Hf. unfold main, select. rewrite Hl, Hp.
  destruct ps as [|p ps]; [now apply Exists_nil in Hd|].
  apply bind_exit_eq. unfold preset_mode.
  destruct (resolve_loop_ok (p :: ps) [] false w Hk) as [chosen' [Hrun _]].
  rewrite (bind_ret_eq _ _ _ _ _ Hrun).
  assert (Hu : existsb
                 (fun x => bool_decide
                             (get_preset_by_name_or_id x
                              = Some (lit "in_dictionary"))) (p :: ps)
               = true).
  { apply existsb_exists. apply List.Exists_exists in Hd.
    destruct Hd as [k [Hin Hk']]. exists k. split; [exact Hin|].
    now apply bool_decide_eq_true_2. }
  rewrite Hu, Hf. cbn [orb is_some negb andb].
  apply bind_exit_eq. reflexivity.
Qed.

Lemma filter_passwords_fst (wl : InFile) (out : OutFile) (ps : list str)
    (adf : option InFile) (inv ic : bool) (w : World) :
  fst (filter_passwords wl out (Some ps) adf inv ic w)
  = match compile_list ps ic with Some _ => Ret tt | None => Exit 1 end.
Proof.
  unfold filter_passwords.
  destruct (compile_patterns_eq ic ps w) as [w' [_ Hc]].
  destruct (compile_list ps ic) as [rxs|].
  - rewrite (bind_ret_eq _ _ _ _ _ Hc). unfold bind.
    now rewrite process_lines_eq.
  - now rewrite (bind_exit_eq _ _ _ _ _ Hc).
Qed.

(** The first identifier that does not resolve, if there is one. *)
Lemma first_unresolved (l : list str) :
  Forall (fun k => get_preset_by_name_or_id k <> None) l
  \/ exists known x rest,
       l = known ++ x :: rest
       /\ Forall (fun k => get_preset_by_name_or_id k <> None) known
       /\ get_preset_by_name_or_id x = None.
Proof.
  induction l as [|k l IH]; [left; constructor|].
  destruct (get_preset_by_name_or_id k) as [n|] eqn:E.
  - destruct IH as [IH|[known [x [rest [-> [Hk Hx]]]]]].
    + left. constructor; [congruence|exact IH].
    + right. exists (k :: known), x, rest. repeat split; [|exact Hx].
      constructor; [congruence|exact Hk].
  - right. exists [], k, l. repeat split; [constructor|exact E].
Qed.

Lemma resolve_loop_unknown (known rest : list str) (x : str) (w : World) :
  Forall (fun k => get_preset_by_name_or_id k <> None) known ->
  get_preset_by_name_or_id x = None ->
  for_each resolve_step (known ++ x :: rest) ([], false) w
  = (Exit 2,
     mkWorld (stdout w)
       (stderr w
        ++ [parser_error_text (lit "Unknown preset identifier: " ++ x)])
       (outfile w)).
Proof.
  intros Hk Hx. rewrite for_each_app.
  destruct (resolve_loop_ok known [] false w Hk) as [chosen' [Hrun _]].
  rewrite (bind_ret_eq _ _ _ _ _ Hrun). cbn [for_each].
  apply bind_exit_eq. now apply resolve_step_bad.
Qed.

(** X16: A dictionary file is looked at only when the dictionary rule is
    selected.  In custom-regex mode, and in preset mode when no identifier
    resolves to the dictionary rule, the run ends the same way and writes
    the same lines with the file as without it. *)
Theorem unused_dictionary_ignored (wl : InFile) (ps : option (list str))
    (rx : option str) (out : OutFile) (inv ic lp : bool)
    (df : option InFile) (w : World) :
  match ps with
  | Some l =>
      Forall (fun k => get_preset_by_name_or_id k
                       <> Some (lit "in_dictionary")) l
  | None => True
  end ->
  let run (d : option InFile) :=
    main (mkNamespace wl ps rx out inv ic d lp) w in
  fst (run df) = fst (run None)
  /\ sink out (snd (run df)) = sink out (snd (run None)).
Proof.
  intros Hps. cbv zeta.
  destruct lp; [unfold main; cbn [list_presets]; split; reflexivity|].
  assert (Hregex : forall d,
    fst (main (mkNamespace wl None rx out inv ic d false) w)
    = fst (main (mkNamespace wl None rx out inv ic None false) w)
    /\ sink out (snd (main (mkNamespace wl None rx out inv ic d false) w))
       = sink out
           (snd (main (mkNamespace wl None rx out inv ic None false) w))).
  { intros d.
    destruct rx as [[|c r]|];
      [unfold main, select; cbn [list_presets presets regex_arg];
       split; reflexivity
      | |unfold main, select; cbn [list_presets presets regex_arg];
         split; reflexivity].
    destruct d as [lines|]; [|split; reflexivity].
    assert (Hsel : forall rxv d' w',
      select (mkNamespace wl None rxv out inv ic d' false) w
        = (Ret ([c :: r], None), w') ->
      main (mkNamespace wl None rxv out inv ic d' false) w
      = filter_passwords wl out (Some [c :: r]) None inv ic w').
    { intros rxv d' w' H. unfold main. cbn [list_presets].
      now rewrite (bind_ret_eq _ _ _ _ _ H). }
    erewrite (Hsel _ (Some lines)); [|reflexivity].
    erewrite (Hsel _ None); [|reflexivity].
    rewrite !filter_passwords_fst, !filter_passwords_sink.
    split; [reflexivity|]. now destruct out. }
  destruct ps as [[|p l]|]; [| |apply Hregex].
  { destruct (Hregex df) as [H1 H2]. unfold main, select in *.
    cbn [list_presets presets regex_arg dictionary_file wordlist output
         invert_match ignore_case] in *. now split. }
  destruct (first_unresolved (p :: l))
    as [Hall|[known [x [rest [E [Hk Hx]]]]]].
  - destruct (resolve_loop_ok (p :: l) [] false w Hall)
      as [chosen [Hrun Hin]].
    assert (Hu : existsb
                   (fun x => bool_decide
                               (get_preset_by_name_or_id x
                                = Some (lit "in_dictionary"))) (p :: l)
                 = false).
    { apply not_true_is_false. intros H. apply existsb_exists in H.
      destruct H as [k [Hk Hb]]. apply bool_decide_eq_true_1 in Hb.
      rewrite List.Forall_forall in Hps. now apply (Hps k Hk). }
    rewrite Hu in Hrun. cbn [orb] in Hrun.
    assert (Hkeys : forall n, In n chosen -> dict_get PRESETS n <> None).
    { intros n Hn. destruct (Hin n Hn) as [[]|[k [_ Ek]]].
      apply PresetFacts.get_preset_Some in Ek.
      destruct Ek as [d [Hd _]].
      pose proof (PresetFacts.dict_in_true _ _ _ Hd) as Hi.
      unfold dict_in in Hi. destruct (dict_get PRESETS n); discriminate. }
    assert (Hmain : forall d,
      exists w', quiet w w'
        /\ main (mkNamespace wl (Some (p :: l)) rx out inv ic d false) w
           = (if negb (nonempty (flat_map patterns_of chosen))
              then parser_error
                     (lit "No filtering criteria specified. Use --presets or --regex.")
                     w'
              else filter_passwords wl out
                     (Some (flat_map patterns_of chosen)) None inv ic w')).
    { intros d.
      destruct (preset_mode_eq
                  (mkNamespace wl (Some (p :: l)) rx out inv ic d false)
                  (p :: l) w w chosen false Hrun Hkeys) as [w' [Hq Hm]].
      exists w'. split; [exact Hq|]. unfold main, select.
      cbn [list_presets presets]. cbn [andb] in Hm.
      rewrite (bind_ret_eq _ _ _ _ _ Hm). cbv beta iota zeta.
      cbn [is_some negb andb wordlist output invert_match ignore_case].
      rewrite andb_true_r.
      now destruct (negb (nonempty (flat_map patterns_of chosen))). }
    destruct (Hmain df) as [w1 [Hq1 ->]].
    destruct (Hmain None) as [w0 [Hq0 ->]].
    destruct (negb (nonempty (flat_map patterns_of chosen))).
    + unfold parser_error. cbn [fst snd]. split; [reflexivity|].
      destruct Hq1 as [? ?], Hq0 as [? ?].
      destruct out; cbn [sink stdout outfile]; congruence.
    + rewrite !filter_passwords_fst, !filter_passwords_sink.
      split; [reflexivity|].
      now rewrite (quiet_sink out _ _ Hq1), (quiet_sink out _ _ Hq0).
  - assert (Hmain : forall d,
      main (mkNamespace wl (Some (p :: l)) rx out inv ic d false) w
      = (Exit 2,
         mkWorld (stdout w)
           (stderr w
            ++ [parser_error_text
                  (lit "Unknown preset identifier: " ++ x)])
           (outfile w))).
    { intros d. unfold main, select. cbn [list_presets presets].
      apply bind_exit_eq. unfold preset_mode. apply bind_exit_eq.
      rewrite E. now apply resolve_loop_unknown. }
    rewrite !Hmain. now split.
Qed.

(** X17: Two identifiers of the same rule count once: a selection of a rule
    and one of its aliases, or of the same identifier twice, is the run of
    the rule alone, diagnostics and exit status included. *)
Theorem alias_counts_once (wl : InFile) (rx : option str) (out : OutFile)
    (inv ic : bool) (df : option InFile) (A B : str) (w : World) :
  get_preset_by_name_or_id A = get_preset_by_name_or_id B ->
  main (mkNamespace wl (Some [A; B]) rx out inv ic df false) w
  = main (mkNamespace wl (Some [A]) rx out inv ic df false) w.
Proof.
  intros HAB.
  assert (Hloop : for_each resolve_step [A; B] ([], false) w
                  = for_each resolve_step [A] ([], false) w).
  { cbn [for_each].
    destruct (get_preset_by_name_or_id A) as [n|] eqn:EA.
    - rewrite !(bind_ret_eq _ _ _ _ _ (resolve_step_ok [] false A n w EA)).
      cbn [app].
      rewrite (bind_ret_eq _ _ _ _ _
                 (resolve_step_ok _ _ B n w (eq_sym HAB))).
      unfold ret.
      rewrite (bool_decide_eq_true_2 (n ∉ [])) by apply not_elem_of_nil.
      cbn [app].
      rewrite (bool_decide_eq_false_2 (n ∉ [n]))
        by (intros H; apply H; now left).
      now destruct (is_dictionary_rule n).
    - now rewrite !(bind_exit_eq _ _ _ _ _ (resolve_step_bad _ A w EA)). }
  unfold main, select. cbn [list_presets presets]. unfold preset_mode.
  unfold bind at 1 2 5 6. now rewrite Hloop.
Qed.

Lemma resolve_pair_ok (A B nA nB : str) (w : World) :
  get_preset_by_name_or_id A = Some nA ->
  get_preset_by_name_or_id B = Some nB ->
  for_each resolve_step [A; B] ([], false) w
  = (Ret (if bool_decide (nB ∉ [nA]) then [nA; nB] else [nA],
          if is_dictionary_rule nB then true else is_dictionary_rule nA), w).
Proof.
  intros HA HB. cbn [for_each].
  rewrite (bind_ret_eq _ _ _ _ _ (resolve_step_ok [] false A nA w HA)).
  rewrite (bind_ret_eq _ _ _ _ _ (resolve_step_ok _ _ B nB w HB)).
  unfold ret.
  rewrite (bool_decide_eq_true_2 (nA ∉ [])) by apply not_elem_of_nil.
  cbn [app].
  destruct (bool_decide (nB ∉ [nA])), (is_dictionary_rule nA),
    (is_dictionary_rule nB); reflexivity.
Qed.

Lemma resolve_pair_bad (A B : str) (w : World) :
  get_preset_by_name_or_id A = None \/ get_preset_by_name_or_id B = None ->
  exists c w', for_each resolve_step [A; B] ([], false) w = (Exit c, w').
Proof.
  intros H. cbn [for_each].
  destruct (get_preset_by_name_or_id A) as [nA|] eqn:EA.
  - destruct H as [H|HB]; [discriminate|].
    rewrite (bind_ret_eq _ _ _ _ _ (resolve_step_ok [] false A nA w EA)).
    eexists _, _. apply bind_exit_eq. now apply resolve_step_bad.
  - eexists _, _. apply bind_exit_eq. now apply resolve_step_bad.
Qed.

(** X18: The order of two selected presets does not show in what a plain run
    writes: the same lines, in the same order. *)
Theorem preset_order_is_irrelevant (wl : InFile) (out : OutFile)
    (df : option InFile) (ic : bool) (rx : option str) (A B : str) :
  let emitted (ps : list str) :=
    emitted_lines out
      (snd (main (mkNamespace wl (Some ps) rx out false ic df false)
              world0)) in
  emitted [A; B] = emitted [B; A].
Proof.
  cbv beta zeta. rewrite !main_preset_emitted.
  destruct (get_preset_by_name_or_id A) as [nA|] eqn:EA;
    destruct (get_preset_by_name_or_id B) as [nB|] eqn:EB.
  2-4: destruct (resolve_pair_bad A B world0) as [c1 [w1 ->]];
       [rewrite EA, EB; auto|];
       destruct (resolve_pair_bad B A world0) as [c2 [w2 ->]];
       [rewrite EA, EB; auto|]; reflexivity.
  rewrite (resolve_pair_ok A B nA nB world0 EA EB).
  rewrite (resolve_pair_ok B A nB nA world0 EB EA).
  assert (HA : is_dictionary_rule nA = false -> patterns_of nA <> []).
  { apply (PresetFacts.resolved_name A). now rewrite resolved_get. }
  assert (HB : is_dictionary_rule nB = false -> patterns_of nB <> []).
  { apply (PresetFacts.resolved_name B). now rewrite resolved_get. }
  pose proof (criteria_pair nA nB df ic HA HB) as H1.
  pose proof (criteria_pair nB nA df ic HB HA) as H2.
  destruct (criteria (if bool_decide (nB ∉ [nA]) then [nA; nB] else [nA])
              _ df ic) as [f|];
    destruct (criteria (if bool_decide (nA ∉ [nB]) then [nB; nA] else [nB])
                _ df ic) as [g|].
  - destruct H1 as [fA [fB [EfA [EfB Hf]]]].
    destruct H2 as [gB [gA [EgB [EgA Hg]]]].
    rewrite EfA in EgA. rewrite EfB in EgB.
    injection EgA as <-. injection EgB as <-.
    apply filter_ext. intros c. rewrite Hf, Hg. apply andb_comm.
  - destruct H1 as [fA [fB [EfA [EfB _]]]].
    destruct H2 as [H2|H2]; congruence.
  - destruct H2 as [gB [gA [EgB [EgA _]]]].
    destruct H1 as [H1|H1]; congruence.
  - reflexivity.
Qed.

Lemma load_test_fold (lines : InFile) :
  forall (acc : gset str) (p : str),
    p ∈ fold_left (fun passwords line =>
                     let stripped_line := strip line in
                     if truthy stripped_line
                     then {[ stripped_line ]} ∪ passwords
                     else passwords) lines acc
    <-> p ∈ acc \/ In p (candidates lines).
Proof.
  induction lines as [|l lines IH]; intros acc p; cbn [fold_left].
  - split; [now left|]. now intros [H|[]].
  - rewrite IH. unfold candidates. cbn [map List.filter].
    destruct (truthy (strip l)).
    + rewrite elem_of_union, elem_of_singleton. simpl. intuition.
    + tauto.
Qed.

Lemma load_test_members (lines : InFile) (p : str) :
  p ∈ load_test_passwords lines <-> In p (candidates lines).
Proof.
  unfold load_test_passwords. rewrite load_test_fold. split.
  - intros [H|H]; [now apply not_elem_of_empty in H|exact H].
  - now right.
Qed.

Lemma load_dictionary_candidates (lines : InFile) (ic : bool) (word : str) :
  word ∈ load_dictionary (Some lines) ic
  <-> exists p, In p (candidates lines)
                /\ word = (if ic then lower p else p).
Proof.
  cbn [load_dictionary]. rewrite add_word_fold. split.
  - intros [H|[line [Hin [Hne Hw]]]]; [now apply not_elem_of_empty in H|].
    exists (strip line). split; [|exact Hw].
    unfold candidates. apply filter_In. split.
    + apply in_map_iff. now exists line.
    + now destruct (strip line).
  - intros [p [Hp Hw]]. right. unfold candidates in Hp.
    apply filter_In in Hp. destruct Hp as [Hp Ht].
    apply in_map_iff in Hp. destruct Hp as [line [<- Hin]].
    exists line. split; [exact Hin|]. split; [|exact Hw].
    intros E. rewrite E in Ht. discriminate.
Qed.

(** What a run with the dictionary rule alone writes. *)
Lemma main_dict_emitted (wl d : InFile) (out : OutFile) (rx : option str)
    (inv ic : bool) :
  emitted_lines out
    (snd (main (mkNamespace wl (Some [lit "dict"]) rx out inv ic (Some d)
                  false) world0))
  = List.filter
      (fun c =>
         xorb (bool_decide ((if ic then lower c else c)
                            ∈ load_dictionary (Some d) ic)) inv)
      (candidates wl).
Proof.
  set (args := mkNamespace wl (Some [lit "dict"]) rx out inv ic (Some d)
                 false).
  assert (Hget : get_preset_by_name_or_id (lit "dict")
                 = Some (lit "in_dictionary")) by (vm_compute; reflexivity).
  assert (Hres : for_each resolve_step [lit "dict"] ([], false) world0
                 = (Ret ([lit "in_dictionary"], true), world0)).
  { cbn [for_each].
    rewrite (bind_ret_eq _ _ _ _ _ (resolve_step_ok [] false _ _ world0 Hget)).
    reflexivity. }
  assert (Hkeys : forall n, In n [lit "in_dictionary"] ->
                            dict_get PRESETS n <> None).
  { intros n [<-|[]]. vm_compute. discriminate. }
  unfold emitted_lines. change out with (output args).
  rewrite (main_preset_sink args _ _ world0 world0 _ _ eq_refl eq_refl Hres
             (quiet_refl _) Hkeys).
  cbn [dictionary_file ignore_case invert_match wordlist output args].
  replace (sink out world0) with (@nil str) by now destruct out.
  unfold criteria. cbn [is_some negb andb flat_map app].
  replace (patterns_of (lit "in_dictionary")) with (@nil str)
    by (vm_compute; reflexivity).
  cbn [nonempty negb andb compile_list app]. rewrite map_map.
  erewrite map_ext; [rewrite map_id|intros c; apply chomp_terminated].
  apply filter_ext. intros c. rewrite all_criteria_met_eq.
  cbn [regex_loop]. now rewrite andb_true_r.
Qed.

(** X19: The dictionary rule, case-sensitive: a plain run writes exactly the
    wordlist passwords that are dictionary words, an inverted run exactly
    those that are not, both files read the way the test suite's
    [load_test_passwords] reads them. *)
Theorem dictionary_rule_selects_members (wl d : InFile) (out : OutFile)
    (rx : option str) :
  let emitted (inv : bool) : gset str :=
    list_to_set
      (emitted_lines out
         (snd (main (mkNamespace wl (Some [lit "dict"]) rx out inv false
                       (Some d) false) world0))) in
  emitted false = load_test_passwords wl ∩ load_test_passwords d
  /\ emitted true = load_test_passwords wl ∖ load_test_passwords d.
Proof.
  cbv beta zeta. rewrite !main_dict_emitted.
  assert (Hd : forall c, c ∈ load_dictionary (Some d) false
                         <-> c ∈ load_test_passwords d).
  { intros c. rewrite load_dictionary_candidates, load_test_members.
    split; [now intros [p [Hp ->]]|]. intros H. now exists c. }
  split; apply set_eq; intros c;
    rewrite elem_of_list_to_set, list_elem_of_In, filter_In,
      <- load_test_members.
  - rewrite elem_of_intersection, <- Hd.
    case_bool_decide; cbn [xorb]; intuition discriminate.
  - rewrite elem_of_difference, <- Hd.
    case_bool_decide; cbn [xorb]; intuition discriminate.
Qed.

(** X20: The dictionary rule, ignoring case: a plain run writes exactly the
    wordlist passwords whose lower-case form is the lower-case form of a
    dictionary word. *)
Theorem dictionary_rule_ignoring_case (wl d : InFile) (out : OutFile)
    (rx : option str) (p : str) :
  In p (emitted_lines out
          (snd (main (mkNamespace wl (Some [lit "dict"]) rx out false true
                        (Some d) false) world0)))
  <-> p ∈ load_test_passwords wl
      /\ exists word, word ∈ load_test_passwords d
                      /\ lower p = lower word.
Proof.
  rewrite main_dict_emitted, filter_In, <- load_test_members.
  rewrite xorb_false_r, bool_decide_eq_true, load_dictionary_candidates.
  split; intros [Hp [word [Hw E]]]; (split; [exact Hp|]); exists word;
    (split; [|exact E]); now apply load_test_members.
Qed.

Lemma print_eq (s : str) (w : World) :
  print s w
  = (Ret tt, mkWorld (stdout w ++ [terminated s]) (stderr w) (outfile w)).
Proof. reflexivity. Qed.

Lemma print_rows {A B} (row : A -> B -> str) (l : list (A * B)) :
  forall w : World,
    for_each (fun (_ : unit) '(a, b) => print (row a b)) l tt w
    = (Ret tt,
       mkWorld (stdout w ++ map (fun '(a, b) => terminated (row a b)) l)
         (stderr w) (outfile w)).
Proof.
  induction l as [|[a b] l IH]; intros w; cbn [for_each map].
  - unfold ret. rewrite app_nil_r. now destruct w.
  - rewrite (bind_ret_eq _ _ tt _ _ (print_eq _ _)), IH.
    cbn [stdout stderr outfile]. now rewrite <- app_assoc.
Qed.

(** X21: With [--list-presets] the run prints the three header lines and one
    row per catalog entry, in catalog order, to standard output and ends
    with status 0, whatever else was given: no wordlist line is read, no
    pattern compiled, and nothing goes to the diagnostic stream. *)
Theorem list_presets_exits (args : Namespace) (w : World) :
  list_presets args = true ->
  main args w
  = (Exit 0, mkWorld (stdout w ++ listing_rows) (stderr w) (outfile w))
  /\ length listing_rows = (3 + length PRESETS)%nat.
Proof.
  intros Hl. split; [|reflexivity].
  unfold main. rewrite Hl.
  assert (Hinfo : list_presets_info w
    = (Ret tt, mkWorld (stdout w ++ listing_rows) (stderr w) (outfile w))).
  { unfold list_presets_info.
    rewrite (bind_ret_eq _ _ tt _ _ (print_eq _ _)).
    rewrite (bind_ret_eq _ _ tt _ _ (print_eq _ _)).
    rewrite (bind_ret_eq _ _ tt _ _ (print_eq _ _)).
    rewrite print_rows. cbn [stdout stderr outfile]. unfold listing_rows.
    now rewrite <- !app_assoc. }
  now rewrite (bind_ret_eq _ _ tt _ _ Hinfo).
Qed.

End CliMore.

(** ** The catalog on the engine, continued *)

Module SreMore.
Import Sre SreFacts.

Section Shapes.
Context {ct : CaseTables}.
Variable ic : bool.

Lemma dots_no_newline (s : str) (k : nat) :
  ~ In 10%N s -> dots k s = (k <=? length s)%nat.
Proof.
  revert k. induction s as [|c s IH]; intros k Hn; destruct k as [|k];
    try reflexivity.
  cbn [dots length]. rewrite IH by (intros H; apply Hn; now right).
  destruct (c =? 10)%N eqn:E; [|reflexivity].
  apply N.eqb_eq in E. subst c. exfalso. apply Hn. now left.
Qed.

(** On a subject without a newline, [^.{n,}$] is a test of the length. *)
Lemma search_min_length (n : nat) (s : str) :
  ~ In 10%N s ->
  search (mkCompiled (min_length n) ic) s = (n <=? length s)%nat.
Proof.
  intros Hn. unfold min_length. rewrite search_anchored.
  apply eq_true_iff_eq. rewrite run_at_least. cbn [rest].
  rewrite Nat.leb_le. split.
  - intros [k [Hk [Hd _]]]. rewrite (dots_no_newline s k Hn) in Hd.
    apply Nat.leb_le in Hd. lia.
  - intros Hle. exists (length s). split; [exact Hle|]. split.
    + rewrite (dots_no_newline s _ Hn). now apply Nat.leb_le.
    + left. apply List.skipn_all.
Qed.

(** The digit set has no cased member: the ignore-case flag does not
    change what it holds. *)
Lemma digit_set_match (negate : bool) (ch : char) :
  set_match ic negate digit_items ch = xorb negate (in_items ch digit_items).
Proof. unfold set_match. now destruct ic. Qed.

(** [^[0-9]+$] needs a digit at the start. *)
Lemma only_digits_head (s : str) :
  search (mkCompiled
            (Cat AtBeginning
               (Cat (Repeat 1 None (InSet false digit_items))
                  (Cat AtEnd Empty))) ic) s = true ->
  exists ch r, s = ch :: r /\ in_items ch digit_items = true.
Proof.
  rewrite search_anchored. intros H. apply run_cat_nonempty in H.
  destruct H as [st' [Hin _]]. cbn [run rest] in Hin.
  destruct s as [|ch r]; [destruct Hin|]. exists ch, r.
  split; [reflexivity|].
  cbn [length Nat.add rep Nat.eqb andb rest] in Hin.
  rewrite app_nil_r, digit_set_match in Hin. cbn [xorb] in Hin.
  destruct (in_items ch digit_items); [reflexivity|destruct Hin].
Qed.

(** [^[^0-9]*$] cannot start with a digit. *)
Lemma no_digits_head (ch : char) (r : str) :
  in_items ch digit_items = true ->
  search (mkCompiled
            (Cat AtBeginning
               (Cat (Repeat 0 None (InSet true digit_items))
                  (Cat AtEnd Empty))) ic) (ch :: r) = false.
Proof.
  intros Hd. rewrite search_anchored. apply not_true_is_false. intros H.
  apply run_cat_nonempty in H. destruct H as [st' [Hin Hend]].
  cbn [run rest length Nat.add rep Nat.eqb] in Hin.
  rewrite digit_set_match, Hd in Hin. cbn [xorb flat_map app] in Hin.
  destruct Hin as [<-|[]]. apply run_at_end in Hend. cbn [rest] in Hend.
  destruct Hend as [E|E]; [discriminate|]. injection E as -> ->.
  vm_compute in Hd. discriminate.
Qed.

End Shapes.

Lemma existsb_pointwise {A} (f g : A -> bool) (l : list A) :
  (forall x, f x = g x) -> existsb f l = existsb g l.
Proof.
  intros H. induction l as [|x l IH]; simpl; [reflexivity|].
  now rewrite H, IH.
Qed.

(** With the ignore-case flag the sets [[a-z]] and [[A-Z]] hold the same
    characters. *)
Lemma letter_sets_ignoring_case {ct : CaseTables} (ch : char) :
  set_match true false lower_items ch = set_match true false upper_items ch.
Proof. reflexivity. Qed.

End SreMore.

Section CatalogOnEngineMore.
Context {ct : Sre.CaseTables}.
Variable str_lower : str -> str.
Variable error_text : str -> str.

Local Abbreviation engine := (Sre.runtime ct str_lower error_text).

(** X22: The length rules count characters: compiled by the engine, with or
    without the ignore-case flag, min-length-8 and min-length-12 accept a
    candidate without a newline exactly when it has at least 8, or 12,
    characters. *)
Theorem min_length_counts_characters (ignore_case : bool) (password : str) :
  ~ In 10%N password ->
  exists r8 r12,
    @compile_patterns engine
      (Some (flat_map patterns_of [lit "min_length_8"; lit "min_length_12"]))
      ignore_case world0 = (Ret [r8; r12], world0)
    /\ @re_search engine r8 password = (8 <=? length password)%nat
    /\ @re_search engine r12 password = (12 <=? length password)%nat.
Proof.
  intros Hn.
  exists (Sre.mkCompiled (Sre.min_length 8) ignore_case),
    (Sre.mkCompiled (Sre.min_length 12) ignore_case).
  split; [vm_compute; reflexivity|].
  split; apply (SreMore.search_min_length ignore_case _ password Hn).
Qed.

(** X23: The rules only-digits and no-digits exclude each other: compiled by
    the engine, with or without the ignore-case flag, no string satisfies
    both, so a run selecting both never writes a line. *)
Theorem only_digits_excludes_no_digits (ignore_case : bool) :
  exists rxs,
    @compile_patterns engine
      (Some (flat_map patterns_of [lit "only_digits"; lit "no_digits"]))
      ignore_case world0 = (Ret rxs, world0)
    /\ length rxs = 2%nat
    /\ forall password,
         @all_criteria_met engine rxs false ∅ ignore_case password = false.
Proof.
  eexists. split; [vm_compute; reflexivity|]. split; [reflexivity|].
  intros password. rewrite all_criteria_met_eq. cbn [andb regex_loop].
  change (@re_search engine) with (@Sre.search ct).
  match goal with
  | |- context [negb (Sre.search ?rx password)] =>
      destruct (Sre.search rx password) eqn:E1; [|reflexivity]
  end.
  apply (SreMore.only_digits_head ignore_case) in E1.
  destruct E1 as [ch [r [-> Hd]]].
  cbn [negb].
  change (Sre.search _ (ch :: r))
    with (Sre.search
            (Sre.mkCompiled
               (Sre.Cat Sre.AtBeginning
                  (Sre.Cat
                     (Sre.Repeat 0 None (Sre.InSet true Sre.digit_items))
                     (Sre.Cat Sre.AtEnd Sre.Empty))) ignore_case)
            (ch :: r)).
  now rewrite (SreMore.no_digits_head ignore_case ch r Hd).
Qed.

(** X24: With the ignore-case flag the rules has-lowercase and has-uppercase
    are one rule: compiled by the engine, they accept the same strings. *)
Theorem letter_rules_merge_ignoring_case :
  exists lo up,
    @compile_patterns engine
      (Some (flat_map patterns_of [lit "has_lowercase"; lit "has_uppercase"]))
      true world0 = (Ret [lo; up], world0)
    /\ forall password,
         @re_search engine lo password = @re_search engine up password.
Proof.
  exists (Sre.mkCompiled (Sre.has Sre.lower_items) true),
    (Sre.mkCompiled (Sre.has Sre.upper_items) true).
  split; [vm_compute; reflexivity|]. intros password.
  change (@re_search engine) with (@Sre.search ct).
  rewrite !SreFacts.search_has. apply SreMore.existsb_pointwise.
  intros ch. apply SreMore.letter_sets_ignoring_case.
Qed.

End CatalogOnEngineMore.

(** ** Closed instances, continued *)

(** A line with its terminator and the same line indented. *)
Lemma padding_is_irrelevant_witness :
  map strip [lit "abc" ++ nl] = map strip [lit "  abc"]
  /\ @process_lines plain_runtime [lit "abc" ++ nl] SysStdout [] false ∅
       false false world0
     = @process_lines plain_runtime [lit "  abc"] SysStdout [] false ∅
         false false world0.
Proof.
  split; [reflexivity|].
  apply (@padding_is_irrelevant plain_runtime [lit "abc" ++ nl]
           [lit "  abc"] SysStdout [] false ∅ false false world0).
  reflexivity.
Defined.

(** Two compiled patterns, swapped. *)
Lemma pattern_order_is_irrelevant_witness :
  Permutation
    [Sre.mkCompiled (Sre.has Sre.lower_items) false;
     Sre.mkCompiled (Sre.has Sre.digit_items) false]
    [Sre.mkCompiled (Sre.has Sre.digit_items) false;
     Sre.mkCompiled (Sre.has Sre.lower_items) false]
  /\ @process_lines plain_runtime [lit "abc"; lit "a1"] SysStdout
       [Sre.mkCompiled (Sre.has Sre.lower_items) false;
        Sre.mkCompiled (Sre.has Sre.digit_items) false]
       false ∅ false false world0
     = @process_lines plain_runtime [lit "abc"; lit "a1"] SysStdout
         [Sre.mkCompiled (Sre.has Sre.digit_items) false;
          Sre.mkCompiled (Sre.has Sre.lower_items) false]
         false ∅ false false world0.
Proof.
  split; [apply perm_swap|].
  apply (@pattern_order_is_irrelevant plain_runtime [lit "abc"; lit "a1"]
           SysStdout
           [Sre.mkCompiled (Sre.has Sre.lower_items) false;
            Sre.mkCompiled (Sre.has Sre.digit_items) false]
           [Sre.mkCompiled (Sre.has Sre.digit_items) false;
            Sre.mkCompiled (Sre.has Sre.lower_items) false]
           false ∅ false false world0).
  apply perm_swap.
Defined.

(** A good pattern followed by an unbalanced parenthesis. *)
Lemma compile_failure_exits_witness :
  @compile_list plain_runtime [lit "[a-z]"] false
  = Some [Sre.mkCompiled (Sre.has Sre.lower_items) false]
  /\ @re_compile plain_runtime (lit "(") false
     = inr (lit "unsupported or invalid pattern")
  /\ @filter_passwords plain_runtime [lit "abc"] SysStdout
       (Some ([lit "[a-z]"] ++ lit "(" :: [lit "[0-9]"])) None false false
       world0
     = (Exit 1,
        mkWorld (stdout world0)
          (stderr world0
           ++ [terminated (lit "Error: Invalid regex pattern '" ++ lit "("
                           ++ lit "': "
                           ++ lit "unsupported or invalid pattern")])
          (outfile world0)).
Proof.
  split; [reflexivity|]. split; [reflexivity|].
  apply (@compile_failure_exits plain_runtime [lit "abc"] SysStdout
           [lit "[a-z]"] [lit "[0-9]"] (lit "(")
           (lit "unsupported or invalid pattern")
           [Sre.mkCompiled (Sre.has Sre.lower_items) false] None false false
           world0); reflexivity.
Defined.

(** One pattern that compiles, output to a named file. *)
Lemma filter_passwords_success_witness :
  @compile_list plain_runtime [lit "[0-9]"] false
  = Some [Sre.mkCompiled (Sre.has Sre.digit_items) false]
  /\ @filter_passwords plain_runtime [lit "abc"; lit "a1"]
       (TextFile (lit "out.txt")) (Some [lit "[0-9]"]) None false false
       world0
     = (Ret tt,
        mkWorld []
          [terminated
             (lit "Processed 2 valid passwords from 2 total lines. Filtered 1 to out.txt")]
          [terminated (lit "a1")]).
Proof.
  split; [reflexivity|].
  apply (@filter_passwords_success plain_runtime [lit "abc"; lit "a1"]
           (TextFile (lit "out.txt")) [lit "[0-9]"]
           [Sre.mkCompiled (Sre.has Sre.digit_items) false] None false false
           world0).
  reflexivity.
Defined.

(** A dictionary file of one empty line, inverted run. *)
Lemma blank_dictionary_rejects_all_witness :
  forallb (forallb isspace) [nl] = true
  /\ sink SysStdout
       (snd (@filter_passwords plain_runtime [lit "abc"] SysStdout None
               (Some [nl]) true false world0))
     = map terminated (candidates [lit "abc"]).
Proof.
  split; [reflexivity|].
  apply (@blank_dictionary_rejects_all plain_runtime [lit "abc"] SysStdout
           [nl] true false).
  reflexivity.
Defined.


(** The dictionary rule by its id, no dictionary file. *)
Lemma dictionary_file_required_witness :
  Forall (fun k => Presets.get_preset_by_name_or_id k <> None)
    [lit "ml8"; lit "dict"]
  /\ Exists (fun k => Presets.get_preset_by_name_or_id k
                      = Some (lit "in_dictionary")) [lit "ml8"; lit "dict"]
  /\ @Cli.main plain_runtime
       (Cli.mkNamespace [lit "abc"] (Some [lit "ml8"; lit "dict"]) None
          SysStdout false false None false) world0
     = (Exit 2,
        mkWorld (stdout world0)
          (stderr world0
           ++ [usage_error_text
                 (lit "--dictionary-file is required when using the 'in_dictionary' (or 'dict') preset.")])
          (outfile world0)).
Proof.
  assert (H1 : Forall (fun k => Presets.get_preset_by_name_or_id k <> None)
                 [lit "ml8"; lit "dict"])
    by (repeat constructor; vm_compute; discriminate).
  assert (H2 : Exists (fun k => Presets.get_preset_by_name_or_id k
                                = Some (lit "in_dictionary"))
                 [lit "ml8"; lit "dict"])
    by (apply Exists_cons_tl, Exists_cons_hd; vm_compute; reflexivity).
  split; [exact H1|]. split; [exact H2|].
  exact (@dictionary_file_required plain_runtime
           (Cli.mkNamespace [lit "abc"] (Some [lit "ml8"; lit "dict"]) None
              SysStdout false false None false)
           [lit "ml8"; lit "dict"] world0 eq_refl eq_refl H1 H2 eq_refl).
Defined.

(** [--list-presets] together with a selection. *)
Lemma list_presets_exits_witness :
  Cli.list_presets
    (Cli.mkNamespace [lit "abc"] (Some [lit "ml8"]) None SysStdout false
       false None true) = true
  /\ @Cli.main plain_runtime
       (Cli.mkNamespace [lit "abc"] (Some [lit "ml8"]) None SysStdout false
          false None true) world0
     = (Exit 0,
        mkWorld (stdout world0 ++ listing_rows) (stderr world0)
          (outfile world0))
  /\ length listing_rows = (3 + length Presets.PRESETS)%nat.
Proof.
  split; [reflexivity|].
  exact (@list_presets_exits plain_runtime
           (Cli.mkNamespace [lit "abc"] (Some [lit "ml8"]) None SysStdout
              false false None true) world0 eq_refl).
Defined.

(** A length rule with a dictionary file that is not asked for. *)
Lemma unused_dictionary_ignored_witness :
  Forall (fun k => Presets.get_preset_by_name_or_id k
                   <> Some (lit "in_dictionary")) [lit "ml8"]
  /\ fst (@Cli.main plain_runtime
            (Cli.mkNamespace [lit "abc"] (Some [lit "ml8"]) None SysStdout
               false false (Some [lit "abc"]) false) world0)
     = fst (@Cli.main plain_runtime
              (Cli.mkNamespace [lit "abc"] (Some [lit "ml8"]) None SysStdout
                 false false None false) world0)
  /\ sink SysStdout
       (snd (@Cli.main plain_runtime
               (Cli.mkNamespace [lit "abc"] (Some [lit "ml8"]) None
                  SysStdout false false (Some [lit "abc"]) false) world0))
     = sink SysStdout
         (snd (@Cli.main plain_runtime
                 (Cli.mkNamespace [lit "abc"] (Some [lit "ml8"]) None
                    SysStdout false false None false) world0)).
Proof.
  assert (H1 : Forall (fun k => Presets.get_preset_by_name_or_id k
                                <> Some (lit "in_dictionary")) [lit "ml8"])
    by (repeat constructor; vm_compute; discriminate).
  split; [exact H1|].
  exact (@unused_dictionary_ignored plain_runtime [lit "abc"]
           (Some [lit "ml8"]) None SysStdout false false false
           (Some [lit "abc"]) world0 H1).
Defined.

(** A short id and the name it stands for. *)
Lemma alias_counts_once_witness :
  Presets.get_preset_by_name_or_id (lit "ml8")
  = Presets.get_preset_by_name_or_id (lit "min_length_8")
  /\ @Cli.main plain_runtime
       (Cli.mkNamespace [lit "abc"] (Some [lit "ml8"; lit "min_length_8"])
          None SysStdout false false None false) world0
     = @Cli.main plain_runtime
         (Cli.mkNamespace [lit "abc"] (Some [lit "ml8"]) None SysStdout
            false false None false) world0.
Proof.
  assert (H1 : Presets.get_preset_by_name_or_id (lit "ml8")
               = Presets.get_preset_by_name_or_id (lit "min_length_8"))
    by (vm_compute; reflexivity).
  split; [exact H1|].
  exact (@alias_counts_once plain_runtime [lit "abc"] None SysStdout false
           false None (lit "ml8") (lit "min_length_8") world0 H1).
Defined.

(** A candidate of nine characters. *)
Lemma min_length_counts_characters_witness :
  ~ In 10%N (lit "Passw0rd!")
  /\ exists r8 r12,
       @compile_patterns plain_runtime
         (Some (flat_map patterns_of
                  [lit "min_length_8"; lit "min_length_12"]))
         false world0 = (Ret [r8; r12], world0)
       /\ @re_search plain_runtime r8 (lit "Passw0rd!")
          = (8 <=? length (lit "Passw0rd!"))%nat
       /\ @re_search plain_runtime r12 (lit "Passw0rd!")
          = (12 <=? length (lit "Passw0rd!"))%nat.
Proof.
  assert (H1 : ~ In 10%N (lit "Passw0rd!"))
    by (vm_compute; intuition discriminate).
  split; [exact H1|].
  exact (@min_length_counts_characters plain_tables ascii_lower
           usage_error_text false (lit "Passw0rd!") H1).
Defined.
